(** * The TypeDoc options container (class [Options])

    A shallow embedding of the class [Options]: the case-insensitive
    declaration registry, the two value bags (TypeDoc values and TypeScript
    compiler options), the reader pipeline, and the [Result]-returning
    accessors, followed by the properties stated about them.

    Conventions of the embedding.
    - A JavaScript object is a record carrying its address ([ref]); the
      operator [===] on objects compares addresses only.
    - [Map<string, T>] keeps insertion order, which [reset] observes, so the
      registry is an association list with the operations of a [Map].
    - The two bags are plain JavaScript objects used as dictionaries; they
      are finite maps from property names to values, and reading a missing
      property gives [undefined].  (Property names inherited from
      [Object.prototype] are outside the embedding.)
    - A method is a computation over the container that either completes
      normally or throws; what it did to the container before throwing
      stays done, as in JavaScript. *)

From Stdlib Require Import ZArith Ascii String List Sorted Permutation Lia.
From stdpp Require Import gmap strings list fin_maps.
Import ListNotations.

Local Open Scope Z_scope.
Local Open Scope list_scope.
Set Warnings "-register-all".

(** ** Values *)

(** The values an option can hold (TypeScript's [unknown]).  Arrays and
    objects carry the address they live at. *)
Inductive Value : Type :=
| VUndefined
| VNull
| VBool (b : bool)
| VNumber (n : Z)
| VNaN
| VString (s : string)
| VArray (ref : nat) (items : list Value)
| VObject (ref : nat) (fields : list (string * Value)).

(** The operator [===]: primitives by value ([NaN] differs from itself),
    arrays and objects by address. *)
Definition strict_equals (a b : Value) : bool :=
  match a, b with
  | VUndefined, VUndefined => true
  | VNull, VNull => true
  | VBool x, VBool y => Bool.eqb x y
  | VNumber x, VNumber y => Z.eqb x y
  | VString x, VString y => String.eqb x y
  | VArray r1 _, VArray r2 _ => Nat.eqb r1 r2
  | VObject r1 _, VObject r2 _ => Nat.eqb r1 r2
  | _, _ => false
  end.

(** Deep comparison of the contents, addresses ignored (what lodash's
    [isEqual] would answer). *)
Fixpoint struct_equal (a b : Value) : bool :=
  match a, b with
  | VUndefined, VUndefined => true
  | VNull, VNull => true
  | VBool x, VBool y => Bool.eqb x y
  | VNumber x, VNumber y => Z.eqb x y
  | VNaN, VNaN => true
  | VString x, VString y => String.eqb x y
  | VArray _ xs, VArray _ ys =>
      (fix items (xs ys : list Value) : bool :=
         match xs, ys with
         | [], [] => true
         | x :: xs', y :: ys' => struct_equal x y && items xs' ys'
         | _, _ => false
         end) xs ys
  | VObject _ fs, VObject _ gs =>
      (fix fields (fs gs : list (string * Value)) : bool :=
         match fs, gs with
         | [], [] => true
         | (k, x) :: fs', (l, y) :: gs' =>
             String.eqb k l && struct_equal x y && fields fs' gs'
         | _, _ => false
         end) fs gs
  | _, _ => false
  end.

(** The address of an array or an object; primitives have none. *)
Definition address (v : Value) : option nat :=
  match v with
  | VArray r _ | VObject r _ => Some r
  | _ => None
  end.

(** Arrays and objects, as opposed to primitives. *)
Definition is_container (v : Value) : bool :=
  match v with
  | VArray _ _ | VObject _ _ => true
  | _ => false
  end.

(** ** Strings *)

Definition lower_ascii (c : ascii) : ascii :=
  let n := nat_of_ascii c in
  if (Nat.leb 65 n && Nat.leb n 90)%bool then ascii_of_nat (n + 32) else c.

(** [String.prototype.toLowerCase], on ASCII strings. *)
Fixpoint toLowerCase (s : string) : string :=
  match s with
  | EmptyString => EmptyString
  | String c rest => String (lower_ascii c) (toLowerCase rest)
  end.

(** ** The result type (../result) *)

Record Error : Type := mkError { message : string }.

Inductive Result (T E : Type) : Type :=
| Ok (value : T)
| Err (error : E).
Arguments Ok {T E} value.
Arguments Err {T E} error.

(** ** Declarations (./declaration) *)

Inductive ParameterScope : Type := TypeDoc | TypeScript.

(** Modelled from the spec: the enumeration of option kinds of
    ./declaration is not among the sources; the spec names the kinds
    flag, number, string, enumeration, sequence and free-form. *)
Inductive ParameterType : Type :=
| String_ | Number | Boolean | Map_ | Array | Mixed.

(** A declaration object.  [ref] is the address of the object: two
    declarations are the same object exactly when their [ref]s agree. *)
Record DeclarationOption : Type := mkDeclaration {
  ref : nat;
  name : string;
  short : option string;
  scope : option ParameterScope;
  type : option ParameterType;
  defaultValue : Value
}.

(** [a === b] on declaration objects. *)
Definition same_object (a b : DeclarationOption) : bool :=
  Nat.eqb (ref a) (ref b).

(** [declaration.scope === ParameterScope.TypeScript]; an unset scope is
    not the TypeScript scope. *)
Definition is_TypeScript (d : DeclarationOption) : bool :=
  match scope d with
  | Some TypeScript => true
  | _ => false
  end.

(** [if (declaration.short)]: an absent or empty short name is falsy. *)
Definition truthy_short (d : DeclarationOption) : option string :=
  match short d with
  | Some EmptyString => None
  | Some s => Some s
  | None => None
  end.

(** ** [Map<string, T>]: an insertion-ordered dictionary *)

Module JSMap.
Section JSMap.
Context {T : Type}.

Definition t := list (string * T).

Fixpoint get (k : string) (m : t) : option T :=
  match m with
  | [] => None
  | (k', v) :: rest => if String.eqb k k' then Some v else get k rest
  end.

(** [set] on a present key keeps the position of the entry; a new key
    goes to the end. *)
Fixpoint set (k : string) (v : T) (m : t) : t :=
  match m with
  | [] => [(k, v)]
  | (k', v') :: rest =>
      if String.eqb k k' then (k', v) :: rest else (k', v') :: set k v rest
  end.

Fixpoint delete (k : string) (m : t) : t :=
  match m with
  | [] => []
  | (k', v') :: rest =>
      if String.eqb k k' then delete k rest else (k', v') :: delete k rest
  end.

Definition values (m : t) : list T := List.map snd m.
End JSMap.
Arguments t : clear implicits.
End JSMap.

(** ** Readers and the container *)

(** An [OptionsReader].  Its [read] method belongs to the code that
    supplies the reader; the container only stores, orders and calls it
    (see [reader_read] below).  [tag] tells apart readers that share a name
    and a priority. *)
Module OptionsReader.
Record t : Type := mk { priority : Z; name : string; tag : nat }.
End OptionsReader.

(** A [Logger], seen through the error messages it has been handed. *)
Definition Logger : Type := list string.

Definition Logger_error (msg : string) (logger : Logger) : Logger :=
  logger ++ [msg].

Record Options : Type := mkOptions {
  _readers : list OptionsReader.t;
  _declarations : JSMap.t DeclarationOption;
  _values : gmap string Value;
  _compilerOptions : gmap string Value;
  _logger : Logger
}.

(** [new Options(logger)] *)
Definition Options_new (logger : Logger) : Options :=
  mkOptions [] [] ∅ ∅ logger.

Definition set_readers (f : list OptionsReader.t -> list OptionsReader.t)
    (this : Options) : Options :=
  mkOptions (f (_readers this)) (_declarations this) (_values this)
    (_compilerOptions this) (_logger this).

Definition set_declarations
    (f : JSMap.t DeclarationOption -> JSMap.t DeclarationOption)
    (this : Options) : Options :=
  mkOptions (_readers this) (f (_declarations this)) (_values this)
    (_compilerOptions this) (_logger this).

Definition set_values (f : gmap string Value -> gmap string Value)
    (this : Options) : Options :=
  mkOptions (_readers this) (_declarations this) (f (_values this))
    (_compilerOptions this) (_logger this).

Definition set_compilerOptions (f : gmap string Value -> gmap string Value)
    (this : Options) : Options :=
  mkOptions (_readers this) (_declarations this) (_values this)
    (f (_compilerOptions this)) (_logger this).

Definition set_logger (f : Logger -> Logger) (this : Options) : Options :=
  mkOptions (_readers this) (_declarations this) (_values this)
    (_compilerOptions this) (f (_logger this)).

(** [bag[key]]: a missing property reads as [undefined]. *)
Definition property (bag : gmap string Value) (key : string) : Value :=
  match bag !! key with
  | Some v => v
  | None => VUndefined
  end.

(** ** Methods as computations *)

Inductive Completion (A : Type) : Type :=
| Normal (a : A)
| Throw (e : Error).
Arguments Normal {A} a.
Arguments Throw {A} e.

Definition M (A : Type) : Type := Options -> Completion A * Options.

Definition ret {A} (a : A) : M A := fun this => (Normal a, this).

Definition bind {A B} (m : M A) (k : A -> M B) : M B :=
  fun this =>
    match m this with
    | (Normal a, this') => k a this'
    | (Throw e, this') => (Throw e, this')
    end.

Definition throw {A} (e : Error) : M A := fun this => (Throw e, this).

Definition gets {A} (f : Options -> A) : M A :=
  fun this => (Normal (f this), this).

Definition modify (f : Options -> Options) : M unit :=
  fun this => (Normal tt, f this).

Declare Scope js_scope.
Delimit Scope js_scope with js.
Notation "x <- m ;; k" := (bind m (fun x => k))
  (at level 100, m at next level, k at level 200, only parsing) : js_scope.
Notation "m ;; k" := (bind m (fun _ => k))
  (at level 100, k at level 200, only parsing) : js_scope.

Local Open Scope js_scope.

(** [for (const x of xs) body] *)
Fixpoint for_of {A} (xs : list A) (body : A -> M unit) : M unit :=
  match xs with
  | [] => ret tt
  | x :: rest => body x ;; for_of rest body
  end.

(** Modelled from the spec: [Result.expect] of ../result is not among the
    sources; unwrapping raises only on the failure variant. *)
Definition expect {T E} (r : Result T E) (msg : string) : M T :=
  match r with
  | Ok v => ret v
  | Err _ => throw (mkError msg)
  end.

(** ** Helpers that are not among the sources *)

(** Modelled from the spec: [insertPrioritySorted] of ../array is not
    among the sources.  It inserts into an array kept in ascending-priority
    order, a tie going after the readers already there: the new item lands
    in front of the first item of strictly greater priority, or at the
    end. *)
Fixpoint insertPrioritySorted (arr : list OptionsReader.t)
    (item : OptionsReader.t) : list OptionsReader.t :=
  match arr with
  | [] => [item]
  | v :: rest =>
      if OptionsReader.priority item <? OptionsReader.priority v
      then item :: v :: rest
      else v :: insertPrioritySorted rest item
  end.

(** [_.uniq] of lodash on an array of declaration objects: the first
    occurrence of each object is kept, in the order of the array; objects
    are compared by [===] (SameValueZero).  [seen] holds the objects
    already kept. *)
Fixpoint uniq_from (seen array : list DeclarationOption)
    : list DeclarationOption :=
  match array with
  | [] => []
  | d :: rest =>
      if existsb (same_object d) seen
      then uniq_from seen rest
      else d :: uniq_from (d :: seen) rest
  end.

Definition uniq (array : list DeclarationOption) : list DeclarationOption :=
  uniq_from [] array.

(** [a === b] on members of the enumeration [ParameterScope]. *)
Definition ParameterScope_eqb (a b : ParameterScope) : bool :=
  match a, b with
  | TypeDoc, TypeDoc => true
  | TypeScript, TypeScript => true
  | _, _ => false
  end.

(** A stand-in for [convert] of ./declaration, which is not among the
    sources.  Every property below is proved for an arbitrary conversion
    function; this one only serves to run concrete scenarios.  The
    free-form kind takes any value as it is; every other kind takes the
    values of its own shape as they are and rejects the rest. *)
Definition sampleConvert (value : Value) (option : DeclarationOption)
    : Result Value string :=
  let reject := Err ("Invalid value for " +:+ name option) in
  match type option, value with
  | Some Mixed, _ => Ok value
  | Some Boolean, VBool _ => Ok value
  | Some Number, VNumber _ => Ok value
  | Some Array, VArray _ _ => Ok value
  | Some Map_, VString _ => Ok value
  | Some String_, VString _ => Ok value
  | None, VString _ => Ok value
  | _, _ => reject
  end.

(** ** The class [Options] *)

(** [convert(value, declaration)] of ./declaration: the validate-and-convert
    step, a pure function of the raw value and the declaration. *)
Class Converter : Type :=
  convert : Value -> DeclarationOption -> Result Value string.

Definition sampleConverter : Converter := sampleConvert.

(** What one call of a reader's [read] did.  [completion]: it returned,
    with what the logger then holds, or it threw.  [container]: the
    container it left.  [replaced]: what became of the array that
    [this._readers] was when the reader was called.  [addReader] inserts
    into that array in place, and then it still is [this._readers]:
    [None].  [removeReaderByName] assigns another array to
    [this._readers]; the former array is then out of reach of the
    container, and [Some arr] gives what it holds, the readers inserted
    into it before it was replaced included. *)
Record ReaderEffect : Type := mkReaderEffect {
  completion : Completion Logger;
  container : Options;
  replaced : option (list OptionsReader.t)
}.

(** [reader.read(container, logger)], the method of the interface
    [OptionsReader]: the code of the readers.  It may change the
    container, its pipeline included, report to the logger it is handed,
    and throw. *)
Class ReaderCode : Type :=
  reader_read : OptionsReader.t -> Logger -> Options -> ReaderEffect.

Section Options.
Context {converter : Converter} {readers : ReaderCode}.

Definition getDeclaration (this : Options) (name_ : string)
    : option DeclarationOption :=
  JSMap.get (toLowerCase name_) (_declarations this).

(** [names] of [addDeclaration]: the name, then the short name if it
    is truthy. *)
Definition declaration_names (declaration : DeclarationOption)
    : list string :=
  name declaration ::
  match truthy_short declaration with
  | Some s => [s]
  | None => []
  end.

(** [this._values[declaration.name] = convert(declaration.defaultValue,
    declaration).expect(...)], guarded by the scope test; shared by
    [reset] and [addDeclaration]. *)
Definition store_default (declaration : DeclarationOption) : M unit :=
  if negb (is_TypeScript declaration) then
    v <- expect (convert (defaultValue declaration) declaration)
           ("Failed to validate default value for " +:+ name declaration) ;;
    modify (set_values (insert (name declaration) v))
  else ret tt.

(** [setLogger(logger)] *)
Definition setLogger (logger : Logger) : M unit :=
  modify (set_logger (fun _ => logger)).

Definition reset : M unit :=
  declarations <- gets (fun this => JSMap.values (_declarations this)) ;;
  for_of declarations store_default ;;
  modify (set_compilerOptions (fun _ => ∅)).

Definition addReader (reader : OptionsReader.t) : M unit :=
  modify (set_readers (fun arr => insertPrioritySorted arr reader)).

Definition removeReaderByName (name_ : string) : M unit :=
  modify (set_readers
    (List.filter (fun reader =>
       negb (String.eqb (OptionsReader.name reader) name_)))).

(** The array that [for (const reader of this._readers)] walks: the one
    [this._readers] was when the loop started.  [None]: it still is
    [this._readers]; [Some arr]: [this._readers] has been replaced since,
    and the loop goes on over the former array, which holds [arr]. *)
Definition walked (detached : option (list OptionsReader.t))
    (this : Options) : list OptionsReader.t :=
  match detached with
  | None => _readers this
  | Some arr => arr
  end.

(** The loop of [read], from position [index] on.  The array is read anew
    at each step, as the iterator of a JavaScript array does, so a reader
    inserted behind the position during the pass is called in the same
    pass, and one inserted at the position or in front of it moves the
    reader just called one place on, where it is called again.  A reader
    that keeps adding readers keeps the loop going
    for ever: [fuel] bounds the number of steps, and [None] says that the
    pass was not over within them. *)
Fixpoint read_from (fuel index : nat)
    (detached : option (list OptionsReader.t)) (logger : Logger)
    (this : Options) : option (Completion Logger * Options) :=
  match fuel with
  | O => None
  | S fuel' =>
      match nth_error (walked detached this) index with
      | None => Some (Normal logger, this)
      | Some reader =>
          let effect := reader_read reader logger this in
          match completion effect with
          | Throw e => Some (Throw e, container effect)
          | Normal logger' =>
              read_from fuel' (S index)
                match detached with
                | Some arr => Some arr
                | None => replaced effect
                end
                logger' (container effect)
          end
      end
  end.

(** [read(logger)].  The logger comes back with what the readers
    reported. *)
Definition read (fuel : nat) (logger : Logger) (this : Options)
    : option (Completion Logger * Options) :=
  read_from fuel 0 None logger this.

(** The body of the loop of [addDeclaration]. *)
Definition register_name (declaration : DeclarationOption)
    (name_ : string) : M unit :=
  decl <- gets (fun this => getDeclaration this name_) ;;
  match decl with
  | Some decl =>
      if negb (same_object decl declaration) then
        modify (set_logger (Logger_error
          ("The option " +:+ name_ +:+ " has already been registered")))
      else
        modify (set_declarations
          (JSMap.set (toLowerCase name_) declaration))
  | None =>
      modify (set_declarations (JSMap.set (toLowerCase name_) declaration))
  end.

Definition addDeclaration (declaration : DeclarationOption) : M unit :=
  for_of (declaration_names declaration) (register_name declaration) ;;
  store_default declaration.

Definition addDeclarations (declarations : list DeclarationOption)
    : M unit :=
  for_of declarations addDeclaration.

Definition removeDeclarationByName (name_ : string) : M unit :=
  declaration <- gets (fun this => getDeclaration this name_) ;;
  match declaration with
  | Some declaration =>
      modify (set_declarations
        (JSMap.delete (toLowerCase (name declaration)))) ;;
      match truthy_short declaration with
      | Some s => modify (set_declarations (JSMap.delete (toLowerCase s)))
      | None => ret tt
      end ;;
      modify (set_values (delete (name declaration)))
  | None => ret tt
  end.

Definition tryGetValue (name_ : string) : M (Result Value Error) :=
  declaration <- gets (fun this => getDeclaration this name_) ;;
  match declaration with
  | None => ret (Err (mkError ("Unknown option '" +:+ name_ +:+ "'")))
  | Some declaration =>
      if is_TypeScript declaration then
        ret (Err (mkError
          "TypeScript options must be fetched with getCompilerOptions."))
      else
        v <- gets (fun this => property (_values this) (name declaration)) ;;
        ret (Ok v)
  end.

Definition getValue (name_ : string) : M Value :=
  r <- tryGetValue name_ ;;
  match r with
  | Ok v => ret v
  | Err err => throw err
  end.

(** [this.getValue(name) === this.getDeclaration(name)!.defaultValue]:
    the left operand is evaluated first; reading [defaultValue] off
    [undefined] would be a [TypeError]. *)
Definition isDefault (name_ : string) : M bool :=
  v <- getValue name_ ;;
  declaration <- gets (fun this => getDeclaration this name_) ;;
  match declaration with
  | Some declaration => ret (strict_equals v (defaultValue declaration))
  | None =>
      throw (mkError
        "TypeError: Cannot read property 'defaultValue' of undefined")
  end.

Definition setValue (name_ : string) (value : Value)
    : M (Result unit Error) :=
  declaration <- gets (fun this => getDeclaration this name_) ;;
  match declaration with
  | None =>
      ret (Err (mkError ("Tried to set an option (" +:+ name_
                         +:+ ") that was not declared.")))
  | Some declaration =>
      match convert value declaration with
      | Ok value =>
          (if is_TypeScript declaration
           then modify (set_compilerOptions
                          (insert (name declaration) value))
           else modify (set_values (insert (name declaration) value))) ;;
          ret (Ok tt)
      | Err err => ret (Err (mkError err))
      end
  end.

(** The loop of [setValues] over [Object.entries(obj)], with the array
    [errors] it pushes to. *)
Fixpoint setValues_loop (entries : list (string * Value))
    (errors : list Error) : M (list Error) :=
  match entries with
  | [] => ret errors
  | (name_, value) :: rest =>
      r <- setValue name_ value ;;
      match r with
      | Ok _ => setValues_loop rest errors
      | Err error => setValues_loop rest (errors ++ [error])
      end
  end.

(** [setValues(obj)]; [obj] is given by its entries, in the order of
    [Object.entries]. *)
Definition setValues (obj : list (string * Value))
    : M (Result unit (list Error)) :=
  errors <- setValues_loop obj [] ;;
  ret (match errors with
       | [] => Ok tt
       | _ :: _ => Err errors
       end).

(** [declaration.scope ?? ParameterScope.TypeDoc] *)
Definition scope_or_TypeDoc (declaration : DeclarationOption)
    : ParameterScope :=
  match scope declaration with
  | Some s => s
  | None => TypeDoc
  end.

Definition getDeclarationsByScope (this : Options) (scope_ : ParameterScope)
    : list DeclarationOption :=
  List.filter
    (fun declaration =>
       ParameterScope_eqb (scope_or_TypeDoc declaration) scope_)
    (uniq (JSMap.values (_declarations this))).

(** *** Vocabulary of the statements *)

(** The diagnostic [addDeclaration] hands to the logger for a name held
    by another declaration object. *)
Definition conflict_message (name_ : string) : string :=
  "The option " +:+ name_ +:+ " has already been registered".

(** [decl && decl !== declaration] for the declaration found under
    [name_]. *)
Definition conflicts (this : Options) (declaration : DeclarationOption)
    (name_ : string) : bool :=
  match getDeclaration this name_ with
  | Some decl => negb (same_object decl declaration)
  | None => false
  end.

(** The readers of a list called one after the other, each on the
    container and with the logger that the one before left, until one
    throws: what a pass over a pipeline that stays as it is comes to. *)
Fixpoint call_each (rs : list OptionsReader.t) (logger : Logger)
    (this : Options) : Completion Logger * Options :=
  match rs with
  | [] => (Normal logger, this)
  | reader :: rest =>
      let effect := reader_read reader logger this in
      match completion effect with
      | Throw e => (Throw e, container effect)
      | Normal logger' => call_each rest logger' (container effect)
      end
  end.

(** A call of a reader that inserted no reader into the array that
    [this._readers] was when it was called: that array holds what it
    held.  (The call may have replaced the array, as [removeReaderByName]
    does, and added readers to the new one.) *)
Definition leaves_array (effect : ReaderEffect) (this : Options) : Prop :=
  walked (replaced effect) (container effect) = _readers this.

(** No reader adds a reader to the array it is being read from. *)
Definition readers_leave_array : Prop :=
  forall reader logger this,
    leaves_array (reader_read reader logger this) this.

(** The order of the pipeline, and the readers of one priority in the
    order a list has them. *)
Definition priority_le (a b : OptionsReader.t) : Prop :=
  OptionsReader.priority a <= OptionsReader.priority b.

Definition with_priority (p : Z) (rs : list OptionsReader.t)
    : list OptionsReader.t :=
  List.filter (fun r => OptionsReader.priority r =? p) rs.

(** Every key of the registry is the lowered name or the lowered short
    name of the declaration it holds, as [addDeclaration] puts them. *)
Definition keyed_by_names (this : Options) : Prop :=
  forall key d,
    JSMap.get key (_declarations this) = Some d ->
    key = toLowerCase (name d)
    \/ exists s, truthy_short d = Some s /\ key = toLowerCase s.

(** What [store_default] does to [_values] when it does not throw. *)
Definition default_into (bag : gmap string Value)
    (declaration : DeclarationOption) : gmap string Value :=
  if is_TypeScript declaration then bag
  else match convert (defaultValue declaration) declaration with
       | Ok v => <[name declaration := v]> bag
       | Err _ => bag
       end.

(** The default of a declaration can be stored: the declaration is of the
    TypeScript scope, which stores none, or its default converts. *)
Definition default_valid (declaration : DeclarationOption) : Prop :=
  is_TypeScript declaration = true
  \/ exists v, convert (defaultValue declaration) declaration = Ok v.

(** The default that a pass of [store_default] over [ds] leaves under
    [key]: that of the last declaration of [ds] outside the TypeScript
    scope that bears the name and whose default converts. *)
Fixpoint default_under (key : string) (ds : list DeclarationOption)
    : option Value :=
  match ds with
  | [] => None
  | d :: rest =>
      match default_under key rest with
      | Some v => Some v
      | None =>
          if is_TypeScript d then None
          else match convert (defaultValue d) d with
               | Ok v => if String.eqb (name d) key then Some v else None
               | Err _ => None
               end
      end
  end.

(** The calls a user of the container can make on it, readers' code
    apart, and the container each leaves. *)
Inductive Call : Type :=
| CallSetLogger (logger : Logger)
| CallReset
| CallAddReader (reader : OptionsReader.t)
| CallRemoveReaderByName (name_ : string)
| CallAddDeclaration (declaration : DeclarationOption)
| CallAddDeclarations (declarations : list DeclarationOption)
| CallRemoveDeclarationByName (name_ : string)
| CallSetValue (name_ : string) (value : Value)
| CallSetValues (obj : list (string * Value)).

Definition perform (this : Options) (call : Call) : Options :=
  match call with
  | CallSetLogger logger => snd (setLogger logger this)
  | CallReset => snd (reset this)
  | CallAddReader reader => snd (addReader reader this)
  | CallRemoveReaderByName name_ => snd (removeReaderByName name_ this)
  | CallAddDeclaration declaration => snd (addDeclaration declaration this)
  | CallAddDeclarations declarations =>
      snd (addDeclarations declarations this)
  | CallRemoveDeclarationByName name_ =>
      snd (removeDeclarationByName name_ this)
  | CallSetValue name_ value => snd (setValue name_ value this)
  | CallSetValues obj => snd (setValues obj this)
  end.

(** What holds of a container however it was used: the pipeline is in
    ascending-priority order, the registry has one entry for each key, and
    each key is the lowered name or short name of what it holds. *)
Definition well_formed (this : Options) : Prop :=
  StronglySorted priority_le (_readers this)
  /\ NoDup (List.map fst (_declarations this))
  /\ keyed_by_names this.

(** The bag that holds the value of an option of this scope. *)
Definition bag_of (this : Options) (declaration : DeclarationOption)
    : gmap string Value :=
  if is_TypeScript declaration
  then _compilerOptions this
  else _values this.

(** The error [setValue] answers for one entry, if it fails. *)
Definition setValue_error (this : Options) (entry : string * Value)
    : option Error :=
  match fst (setValue (fst entry) (snd entry) this) with
  | Normal (Err error) => Some error
  | _ => None
  end.

(** The container after [setValue] on one entry. *)
Definition setValue_state (this : Options) (entry : string * Value)
    : Options :=
  snd (setValue (fst entry) (snd entry) this).

End Options.

(** ** The class [TypeParameterType] *)

Module TypeParameterType.
Section Types.

(** The instances of the other subclasses of [Type] (./abstract and its
    other subclasses are not among the sources). *)
Context {OtherType : Type}.

(** A [Type]: a [TypeParameterType] with its [name] and its optional
    [constraint], or an instance of another subclass. *)
Inductive Type_ : Type :=
| TypeParameter (name : string) (constraint : option Type_)
| Other (t : OtherType).

(** [equals] of the other subclasses of [Type]. *)
Context (Other_equals : OtherType -> Type_ -> bool).

(** [this.equals(type)], the method being chosen by the class of [this]:
    for a [TypeParameterType] it is the method of the source.  Its inner
    call [type.constraint.equals(this.constraint)] has the constraint of
    the argument as receiver, so the recursion goes down both types at
    once; [equals] follows the receiver and [equals_on] is the same call
    followed along the argument. *)
Fixpoint equals (this type : Type_) {struct this} : bool :=
  match this with
  | Other t => Other_equals t type
  | TypeParameter _ this_constraint =>
      match type with
      | Other _ => false
      | TypeParameter _ type_constraint =>
          match this_constraint, type_constraint with
          | Some c, Some k => equals_on c k
          | None, None => true
          | _, _ => false
          end
      end
  end
with equals_on (type this : Type_) {struct type} : bool :=
  match this with
  | Other t => Other_equals t type
  | TypeParameter _ this_constraint =>
      match type with
      | Other _ => false
      | TypeParameter _ type_constraint =>
          match this_constraint, type_constraint with
          | Some c, Some k => equals k c
          | None, None => true
          | _, _ => false
          end
      end
  end.

(** Every type parameter of the chain of constraints renamed. *)
Fixpoint rename (f : string -> string) (t : Type_) : Type_ :=
  match t with
  | TypeParameter n c =>
      TypeParameter (f n)
        match c with
        | Some c' => Some (rename f c')
        | None => None
        end
  | Other t' => Other t'
  end.

(** The number of constraints from a type parameter down its chain, and
    whether the chain consists of type parameters only. *)
Fixpoint depth (t : Type_) : nat :=
  match t with
  | TypeParameter _ (Some c) => S (depth c)
  | _ => 0%nat
  end.

Fixpoint only_parameters (t : Type_) : bool :=
  match t with
  | TypeParameter _ c =>
      match c with
      | Some c' => only_parameters c'
      | None => true
      end
  | Other _ => false
  end.

End Types.
End TypeParameterType.

(** ** Concrete scenarios *)

Module Scenario.

Definition run {A} (m : M A) (this : Options) : Options := snd (m this).

(** A free-form option with a short name, and a second declaration
    object with the same canonical name and another short name. *)
Definition theme : DeclarationOption :=
  mkDeclaration 1 "theme" (Some "t") None (Some Mixed) (VString "default").
Definition theme2 : DeclarationOption :=
  mkDeclaration 2 "theme" (Some "g") None (Some Mixed) (VString "minimal").

(** A flag, an option of sequence kind, a TypeScript option. *)
Definition version : DeclarationOption :=
  mkDeclaration 3 "version" (Some "v") (Some TypeDoc) (Some Boolean)
    (VBool false).
Definition exclude : DeclarationOption :=
  mkDeclaration 4 "exclude" None None (Some Array) (VArray 10 []).
Definition target : DeclarationOption :=
  mkDeclaration 5 "target" None (Some TypeScript) (Some Mixed) VUndefined.

(** A declaration that takes both the name and the short name of
    [theme]. *)
Definition theme3 : DeclarationOption :=
  mkDeclaration 6 "Theme" (Some "T") (Some TypeScript) (Some Mixed)
    VUndefined.

(** A flag whose default is not a flag. *)
Definition broken : DeclarationOption :=
  mkDeclaration 7 "theme" None None (Some Boolean) (VString "yes").

Definition fresh : Options := Options_new [].

Definition declared : Options :=
  run (@addDeclarations sampleConvert [theme; version; exclude; target])
    fresh.

(** [theme] set to a value of the user's. *)
Definition themed : Options :=
  run (@setValue sampleConvert "theme" (VString "dark")) declared.

(** [theme], then the second object of the same canonical name. *)
Definition shadowed : Options :=
  run (@addDeclarations sampleConvert [theme; theme2]) fresh.

(** A compiler option set to a value of the user's. *)
Definition targeted : Options :=
  run (@setValue sampleConvert "target" (VString "ES5")) declared.

(** [exclude] set to an empty array that is not the default's. *)
Definition excluded : Options :=
  run (@setValue sampleConvert "exclude" (VArray 11 [])) declared.

(** A reader that leaves its name in the logger it is handed. *)
Definition tracer : ReaderCode :=
  fun reader logger this =>
    mkReaderEffect (Normal (logger ++ [OptionsReader.name reader])) this None.

Definition argv_late := OptionsReader.mk 300 "argv-late" 0.
Definition argv_early := OptionsReader.mk 0 "argv-early" 1.
Definition tsconfig := OptionsReader.mk 200 "tsconfig-json" 2.
Definition plugin := OptionsReader.mk 0 "plugin" 3.

(** A reader that loads extensions, the readers these bring, and the flag
    that says that they are loaded. *)
Definition plugins := OptionsReader.mk 200 "plugins" 5.
Definition typedoc_json := OptionsReader.mk 100 "typedoc-json" 6.
Definition extra := OptionsReader.mk 100 "extra" 7.
Definition loaded : DeclarationOption :=
  mkDeclaration 12 "loaded" None None (Some Boolean) (VBool false).

(** Readers that leave their name in the logger; the reader named
    ["plugins"], moreover, when the option [loaded] is [false], sets it
    and adds two readers to the container it is reading for. *)
Definition loader : ReaderCode :=
  fun reader logger this =>
    let logger' := logger ++ [OptionsReader.name reader] in
    if String.eqb (OptionsReader.name reader) "plugins" then
      match fst (tryGetValue "loaded" this) with
      | Normal (Ok (VBool false)) =>
          mkReaderEffect (Normal logger')
            (run (addReader extra)
               (run (addReader typedoc_json)
                  (run (@setValue sampleConvert "loaded" (VBool true)) this)))
            None
      | _ => mkReaderEffect (Normal logger') this None
      end
    else mkReaderEffect (Normal logger') this None.

(** Readers that leave their name in the logger; the reader named
    ["plugins"], moreover, removes the readers named ["argv-late"]: the
    container gets another array, and the one it had holds what it
    held. *)
Definition remover : ReaderCode :=
  fun reader logger this =>
    let logger' := logger ++ [OptionsReader.name reader] in
    if String.eqb (OptionsReader.name reader) "plugins" then
      mkReaderEffect (Normal logger')
        (run (removeReaderByName "argv-late") this)
        (Some (_readers this))
    else mkReaderEffect (Normal logger') this None.

Definition loading : Options :=
  run (for_of [argv_late; argv_early; plugins] addReader)
    (run (@addDeclaration sampleConvert loaded) fresh).

End Scenario.

Module MoreScenario.
Import Scenario.

(** An option not declared in [declared], with a short name. *)
Definition out : DeclarationOption :=
  mkDeclaration 9 "out" (Some "o") None (Some Mixed) (VString "docs").

(** A free-form option whose default is [NaN]. *)
Definition ratio : DeclarationOption :=
  mkDeclaration 10 "ratio" None None (Some Mixed) VNaN.

(** A flag whose default is not a flag, under a name of its own. *)
Definition strict : DeclarationOption :=
  mkDeclaration 11 "strict" (Some "s") None (Some Boolean) (VString "yes").

Definition with_ratio : Options :=
  run (@addDeclaration sampleConvert ratio) declared.

(** A pipeline of three readers. *)
Definition piped : Options :=
  run (for_of [argv_late; argv_early; tsconfig] addReader) fresh.

(** The other subclasses of [Type] reduced to one whose instances equal
    nothing, and two type parameters with a constraint each. *)
Definition no_other : unit -> @TypeParameterType.Type_ unit -> bool :=
  fun _ _ => false.

Definition T_extends_U : @TypeParameterType.Type_ unit :=
  TypeParameterType.TypeParameter "T"
    (Some (TypeParameterType.TypeParameter "U" None)).

Definition K_extends_V : @TypeParameterType.Type_ unit :=
  TypeParameterType.TypeParameter "K"
    (Some (TypeParameterType.TypeParameter "V" None)).

End MoreScenario.

(** ** Facts about [Map] *)

Module JSMapFacts.
Section JSMapFacts.
Context {T : Type}.
Implicit Types (m : JSMap.t T) (k : string) (v : T).
Import JSMap.

Lemma get_set_eq k v m : get k (set k v m) = Some v.
Proof.
  induction m as [|[k' v'] rest IH]; simpl.
  - now rewrite String.eqb_refl.
  - destruct (String.eqb k k') eqn:E; simpl; rewrite E; auto.
Qed.

Lemma get_set_ne k k' v m : k <> k' -> get k' (set k v m) = get k' m.
Proof.
  intros Hne. induction m as [|[k0 v0] rest IH]; simpl.
  - destruct (String.eqb k' k) eqn:E; auto.
    apply String.eqb_eq in E. congruence.
  - destruct (String.eqb k k0) eqn:E; simpl.
    + apply String.eqb_eq in E. subst k0.
      destruct (String.eqb k' k) eqn:E'; auto.
      apply String.eqb_eq in E'. congruence.
    + now rewrite IH.
Qed.

Lemma set_id k v m : get k m = Some v -> set k v m = m.
Proof.
  induction m as [|[k' v'] rest IH]; simpl; [discriminate|].
  destruct (String.eqb k k') eqn:E.
  - now intros [= ->].
  - intros H. now rewrite IH.
Qed.

Lemma get_delete_eq k m : get k (delete k m) = None.
Proof.
  induction m as [|[k' v'] rest IH]; simpl; auto.
  destruct (String.eqb k k') eqn:E; simpl; [|rewrite E]; auto.
Qed.

Lemma get_delete_ne k k' m : k <> k' -> get k' (delete k m) = get k' m.
Proof.
  intros Hne. induction m as [|[k0 v0] rest IH]; simpl; auto.
  destruct (String.eqb k k0) eqn:E; simpl.
  - apply String.eqb_eq in E. subst k0.
    destruct (String.eqb k' k) eqn:E'; auto.
    apply String.eqb_eq in E'. congruence.
  - now rewrite IH.
Qed.

Lemma get_delete_None k k' m : get k m = None -> get k (delete k' m) = None.
Proof.
  intros H. destruct (String.eqb_spec k' k) as [->|Hne].
  - apply get_delete_eq.
  - now rewrite get_delete_ne.
Qed.

Lemma delete_id k m : get k m = None -> delete k m = m.
Proof.
  induction m as [|[k' v'] rest IH]; simpl; auto.
  destruct (String.eqb k k') eqn:E; [discriminate|].
  intros H. now rewrite IH.
Qed.

Lemma get_set_Some k k' v x m :
  get k' (set k v m) = Some x -> (k' = k /\ x = v) \/ get k' m = Some x.
Proof.
  destruct (String.eqb_spec k k') as [->|Hne].
  - rewrite get_set_eq. intros [= ->]. now left.
  - rewrite get_set_ne by assumption. now right.
Qed.

Lemma get_delete_Some k k' x m :
  get k (delete k' m) = Some x -> get k m = Some x.
Proof.
  destruct (String.eqb_spec k' k) as [->|Hne].
  - now rewrite get_delete_eq.
  - now rewrite get_delete_ne.
Qed.

Lemma values_set k v x m : In x (values (set k v m)) -> x = v \/ In x (values m).
Proof.
  unfold values. induction m as [|[k' v'] rest IH]; simpl.
  - intros [<-|[]]. now left.
  - destruct (String.eqb k k'); simpl.
    + intros [<-|H]; auto.
    + intros [<-|H]; auto. destruct (IH H); auto.
Qed.

Lemma get_Some_values k v m : get k m = Some v -> In v (values m).
Proof.
  induction m as [|[k' v'] rest IH]; simpl; [discriminate|].
  destruct (String.eqb k k'); [intros [= ->]|]; auto.
Qed.
End JSMapFacts.
End JSMapFacts.

(** ** Properties of the container *)

Section Properties.
Context {converter : Converter} {readers : ReaderCode}.
Implicit Types (this after : Options) (d declaration : DeclarationOption).
Implicit Types (value : Value).

Ltac run_js := unfold bind, gets, ret, modify, throw, expect; simpl.

(** *** Record bookkeeping *)

Lemma set_declarations_id this f :
  f (_declarations this) = _declarations this -> set_declarations f this = this.
Proof. destruct this; unfold set_declarations; simpl; congruence. Qed.

Lemma strict_equals_address a b :
  is_container a = true -> strict_equals a b = true -> address a = address b.
Proof.
  destruct a, b; simpl; try discriminate; intros _ E;
    apply Nat.eqb_eq in E; congruence.
Qed.

(** *** [tryGetValue], [getValue], [isDefault] *)

Lemma tryGetValue_eq (name_ : string) this :
  tryGetValue name_ this =
  (Normal
     match getDeclaration this name_ with
     | None => Err (mkError ("Unknown option '" +:+ name_ +:+ "'"))
     | Some d =>
         if is_TypeScript d
         then Err (mkError
                "TypeScript options must be fetched with getCompilerOptions.")
         else Ok (property (_values this) (name d))
     end, this).
Proof.
  unfold tryGetValue; run_js.
  destruct (getDeclaration this name_) as [d|]; [|reflexivity].
  destruct (is_TypeScript d); reflexivity.
Qed.

(** C6.  [tryGetValue(name)] never throws and leaves the container as it
    is.  It answers [Err] with the unknown-option error when [name] is not
    declared, [Err] with the wrong-scope error when the declaration is of
    the TypeScript scope, and otherwise [Ok] with the value stored in
    [_values] under the declaration's own name. *)
Theorem tryGetValue_outcome (name_ : string) this :
  (exists r, tryGetValue name_ this = (Normal r, this))
  /\ (getDeclaration this name_ = None ->
      tryGetValue name_ this =
      (Normal (Err (mkError ("Unknown option '" +:+ name_ +:+ "'"))), this))
  /\ (forall d, getDeclaration this name_ = Some d ->
      is_TypeScript d = true ->
      tryGetValue name_ this =
      (Normal (Err (mkError
         "TypeScript options must be fetched with getCompilerOptions.")),
       this))
  /\ (forall d, getDeclaration this name_ = Some d ->
      is_TypeScript d = false ->
      tryGetValue name_ this =
      (Normal (Ok (property (_values this) (name d))), this)).
Proof.
  rewrite tryGetValue_eq. repeat split.
  - eexists; reflexivity.
  - intros ->; reflexivity.
  - intros d -> ->; reflexivity.
  - intros d -> ->; reflexivity.
Qed.

(** C10.  On a name without a declaration [isDefault] does not answer
    [false]: it throws, and what it throws is the unknown-option error that
    [tryGetValue] answers and [getValue] rethrows. *)
Theorem isDefault_undeclared_throws (name_ : string) this :
  getDeclaration this name_ = None ->
  let unknown := mkError ("Unknown option '" +:+ name_ +:+ "'") in
  tryGetValue name_ this = (Normal (Err unknown), this)
  /\ getValue name_ this = (Throw unknown, this)
  /\ isDefault name_ this = (Throw unknown, this).
Proof.
  intros Hnone unknown. unfold isDefault, getValue, bind.
  rewrite tryGetValue_eq, Hnone. repeat split.
Qed.

(** C8.  For a declared option outside the TypeScript scope,
    [isDefault(name)] answers exactly [stored === defaultValue], where
    [stored] is what [_values] holds under the declaration's name.  So an
    array or object that has the contents of the default but lives at
    another address is reported as not default. *)
Theorem isDefault_strict_equality (name_ : string) this d :
  getDeclaration this name_ = Some d ->
  is_TypeScript d = false ->
  let stored := property (_values this) (name d) in
  isDefault name_ this = (Normal (strict_equals stored (defaultValue d)), this)
  /\ (is_container stored = true ->
      struct_equal stored (defaultValue d) = true ->
      address stored <> address (defaultValue d) ->
      isDefault name_ this = (Normal false, this)).
Proof.
  intros Hd Hts stored.
  assert (E : isDefault name_ this =
              (Normal (strict_equals stored (defaultValue d)), this)).
  { unfold isDefault, getValue, bind.
    rewrite tryGetValue_eq, Hd, Hts. run_js. now rewrite Hd. }
  split; [exact E|].
  intros Hc _ Haddr. rewrite E.
  destruct (strict_equals stored (defaultValue d)) eqn:Eq; [|reflexivity].
  exfalso. apply Haddr. now apply strict_equals_address.
Qed.

(** *** [setValue] *)

Lemma setValue_eq (name_ : string) value this :
  setValue name_ value this =
  match getDeclaration this name_ with
  | None =>
      (Normal (Err (mkError ("Tried to set an option (" +:+ name_
                             +:+ ") that was not declared."))), this)
  | Some d =>
      match convert value d with
      | Ok v =>
          (Normal (Ok tt),
           if is_TypeScript d
           then set_compilerOptions (insert (name d) v) this
           else set_values (insert (name d) v) this)
      | Err err => (Normal (Err (mkError err)), this)
      end
  end.
Proof.
  unfold setValue; run_js.
  destruct (getDeclaration this name_) as [d|]; [|reflexivity].
  destruct (convert value d); [|reflexivity].
  destruct (is_TypeScript d); reflexivity.
Qed.

(** C3.  [setValue(name, value)]: on an undeclared name it answers [Err]
    and the container is as before; on a declared name whose conversion
    fails it answers [Err] with that message and the container is as
    before; when the conversion succeeds it answers [Ok], the converted
    value is stored under the declaration's own name in the bag of the
    declaration's scope ([_compilerOptions] for the TypeScript scope,
    [_values] otherwise), and nothing else changes. *)
Theorem setValue_outcome (name_ : string) value this :
  (getDeclaration this name_ = None ->
   exists e, setValue name_ value this = (Normal (Err e), this))
  /\ (forall d err, getDeclaration this name_ = Some d ->
      convert value d = Err err ->
      setValue name_ value this = (Normal (Err (mkError err)), this))
  /\ (forall d v, getDeclaration this name_ = Some d ->
      convert value d = Ok v ->
      exists after,
        setValue name_ value this = (Normal (Ok tt), after)
        /\ (if is_TypeScript d
            then _compilerOptions after = <[name d := v]> (_compilerOptions this)
                 /\ _values after = _values this
            else _values after = <[name d := v]> (_values this)
                 /\ _compilerOptions after = _compilerOptions this)
        /\ _declarations after = _declarations this
        /\ _readers after = _readers this
        /\ _logger after = _logger this).
Proof.
  rewrite setValue_eq. repeat split.
  - intros ->. eexists; reflexivity.
  - intros d err -> ->. reflexivity.
  - intros d v -> ->. eexists. split; [reflexivity|].
    destruct (is_TypeScript d); simpl; auto.
Qed.

(** *** [setValues] *)

Lemma setValue_error_eq this (name_ : string) value :
  setValue_error this (name_, value) =
  match getDeclaration this name_ with
  | None => Some (mkError ("Tried to set an option (" +:+ name_
                           +:+ ") that was not declared."))
  | Some d =>
      match convert value d with
      | Ok _ => None
      | Err err => Some (mkError err)
      end
  end.
Proof.
  unfold setValue_error; simpl. rewrite setValue_eq.
  destruct (getDeclaration this name_) as [d|]; [|reflexivity].
  destruct (convert value d); reflexivity.
Qed.

Lemma setValue_state_declarations this entry :
  _declarations (setValue_state this entry) = _declarations this.
Proof.
  destruct entry as [n v]. unfold setValue_state; simpl. rewrite setValue_eq.
  destruct (getDeclaration this n) as [d|]; [|reflexivity].
  destruct (convert v d); [|reflexivity].
  destruct (is_TypeScript d); reflexivity.
Qed.

Lemma setValue_states_declarations entries this :
  _declarations (fold_left setValue_state entries this) = _declarations this.
Proof.
  revert this. induction entries as [|e rest IH]; intros this; simpl; auto.
  now rewrite IH, setValue_state_declarations.
Qed.

(** Whether an entry fails is decided by the declarations alone. *)
Lemma setValue_error_declarations this this' entry :
  _declarations this' = _declarations this ->
  setValue_error this' entry = setValue_error this entry.
Proof.
  intros E. destruct entry as [n v]. rewrite !setValue_error_eq.
  unfold getDeclaration. now rewrite E.
Qed.

Lemma setValue_state_failed this entry :
  setValue_error this entry <> None -> setValue_state this entry = this.
Proof.
  destruct entry as [n v]. rewrite setValue_error_eq.
  unfold setValue_state; simpl. rewrite setValue_eq.
  destruct (getDeclaration this n) as [d|]; [|reflexivity].
  destruct (convert v d); [congruence|reflexivity].
Qed.

Lemma setValue_states_failed entries this :
  Forall (fun entry => setValue_error this entry <> None) entries ->
  fold_left setValue_state entries this = this.
Proof.
  induction 1 as [|e rest He _ IH]; simpl; auto.
  now rewrite setValue_state_failed.
Qed.

Lemma setValue_state_stored this (name_ : string) value d v :
  getDeclaration this name_ = Some d ->
  convert value d = Ok v ->
  bag_of (setValue_state this (name_, value)) d !! name d = Some v.
Proof.
  intros Hd Hc. unfold setValue_state, bag_of; simpl.
  rewrite setValue_eq, Hd, Hc.
  destruct (is_TypeScript d); simpl; apply lookup_insert_eq.
Qed.

Lemma omap_pointwise {A B} (f g : A -> option B) (l : list A) :
  (forall x, f x = g x) -> omap f l = omap g l.
Proof.
  intros E. induction l as [|x l IH]; simpl; [reflexivity|].
  rewrite E. destruct (g x); [f_equal|]; exact IH.
Qed.

Lemma omap_cons_unfold {A B} (f : A -> option B) (x : A) (l : list A) :
  omap f (x :: l) =
  match f x with
  | Some y => y :: omap f l
  | None => omap f l
  end.
Proof. reflexivity. Qed.

Lemma setValue_split this (name_ : string) value :
  setValue name_ value this =
  (Normal match setValue_error this (name_, value) with
          | Some error => Err error
          | None => Ok tt
          end,
   setValue_state this (name_, value)).
Proof.
  unfold setValue_error, setValue_state; simpl. rewrite setValue_eq.
  destruct (getDeclaration this name_) as [d|]; [|reflexivity].
  destruct (convert value d); reflexivity.
Qed.

Lemma setValues_loop_eq entries errors this :
  setValues_loop entries errors this =
  (Normal (errors ++ omap (setValue_error this) entries),
   fold_left setValue_state entries this).
Proof.
  revert errors this.
  induction entries as [|[n v] rest IH]; intros errors this.
  - simpl. now rewrite app_nil_r.
  - cbn [setValues_loop fold_left]. unfold bind.
    rewrite setValue_split, omap_cons_unfold.
    rewrite (omap_pointwise (setValue_error this)
               (setValue_error (setValue_state this (n, v))))
      by (intros e; symmetry; apply setValue_error_declarations,
            setValue_state_declarations).
    destruct (setValue_error this (n, v)); rewrite IH; [|reflexivity].
    now rewrite <- app_assoc.
Qed.

(** C7.  [setValues(obj)] runs [setValue] on every entry of [obj] in
    order, whatever the earlier ones answered, so the container it leaves
    is the one these calls leave one after the other.  The errors it
    collects are the errors of all the entries that fail, in order (whether
    an entry fails does not depend on the entries before it); it answers
    [Err] with them when there is at least one and [Ok] otherwise.  An
    entry that succeeded stays applied when all the entries after it
    fail. *)
Theorem setValues_aggregate (obj : list (string * Value)) this :
  let errors := omap (setValue_error this) obj in
  let after := fold_left setValue_state obj this in
  setValues obj this =
    (Normal match errors with [] => Ok tt | _ :: _ => Err errors end, after)
  /\ (forall pre entry post, obj = pre ++ entry :: post ->
      setValue_error (fold_left setValue_state pre this) entry
      = setValue_error this entry)
  /\ (forall entry error, In entry obj ->
      setValue_error this entry = Some error -> In error errors)
  /\ (errors = [] <->
      Forall (fun entry => setValue_error this entry = None) obj)
  /\ (forall pre (name_ : string) value post d v,
      obj = pre ++ (name_, value) :: post ->
      getDeclaration this name_ = Some d ->
      convert value d = Ok v ->
      Forall (fun entry => setValue_error this entry <> None) post ->
      bag_of after d !! name d = Some v).
Proof.
  intros errors after. repeat split.
  - unfold setValues, bind. rewrite setValues_loop_eq. reflexivity.
  - intros pre entry post _.
    apply setValue_error_declarations, setValue_states_declarations.
  - intros entry error Hin Herr. subst errors.
    apply list_elem_of_In, list_elem_of_omap.
    exists entry. split; [now apply list_elem_of_In|exact Herr].
  - subst errors. induction obj as [|e rest IH]; simpl; [constructor|].
    destruct (setValue_error this e) eqn:E; [discriminate|].
    intros H. constructor; auto.
  - subst errors. induction 1 as [|e rest He _ IH]; simpl; [reflexivity|].
    now rewrite He.
  - intros pre n value post d v -> Hd Hc Hpost. subst after.
    rewrite fold_left_app. simpl.
    set (before := fold_left setValue_state pre this).
    assert (Hdecl : _declarations before = _declarations this)
      by apply setValue_states_declarations.
    rewrite setValue_states_failed.
    + apply setValue_state_stored; [|exact Hc].
      unfold getDeclaration in *. now rewrite Hdecl.
    + eapply Forall_impl; [exact Hpost|]. intros e He. simpl in *.
      rewrite (setValue_error_declarations this); [exact He|].
      now rewrite setValue_state_declarations.
Qed.

(** *** The reader pipeline *)

Lemma insertPrioritySorted_perm arr item :
  Permutation (insertPrioritySorted arr item) (item :: arr).
Proof.
  induction arr as [|v rest IH]; simpl; [reflexivity|].
  destruct (OptionsReader.priority item <? OptionsReader.priority v).
  - reflexivity.
  - rewrite IH. apply perm_swap.
Qed.

Lemma insertPrioritySorted_sorted arr item :
  StronglySorted priority_le arr ->
  StronglySorted priority_le (insertPrioritySorted arr item).
Proof.
  induction 1 as [|v rest Hsorted IH Hall]; simpl.
  - repeat constructor.
  - destruct (Z.ltb_spec (OptionsReader.priority item)
                (OptionsReader.priority v)) as [Hlt|Hge].
    + constructor; [now constructor|].
      constructor; [unfold priority_le; lia|].
      eapply Forall_impl; [exact Hall|].
      unfold priority_le. intros r Hr. lia.
    + constructor; [exact IH|].
      rewrite insertPrioritySorted_perm. now constructor.
Qed.

(** The readers of one priority keep the order they were added in: the
    new reader goes behind those of its own priority. *)
Lemma insertPrioritySorted_stable p arr item :
  StronglySorted priority_le arr ->
  with_priority p (insertPrioritySorted arr item)
  = with_priority p arr ++ with_priority p [item].
Proof.
  unfold with_priority.
  induction 1 as [|v rest Hsorted IH Hall]; [reflexivity|].
  cbn [insertPrioritySorted].
  destruct (Z.ltb_spec (OptionsReader.priority item)
              (OptionsReader.priority v)) as [Hlt|Hge].
  - cbn [List.filter app].
    destruct (Z.eqb_spec (OptionsReader.priority item) p) as [Hp|Hp].
    + assert (Hv : (OptionsReader.priority v =? p) = false)
        by (apply Z.eqb_neq; lia).
      rewrite Hv.
      assert (Hrest : List.filter
                (fun r => OptionsReader.priority r =? p) rest = []).
      { clear IH Hsorted. induction Hall as [|r rest Hr _ IH']; simpl; auto.
        unfold priority_le in Hr.
        assert (Hr' : (OptionsReader.priority r =? p) = false)
          by (apply Z.eqb_neq; lia).
        now rewrite Hr'. }
      rewrite Hrest. reflexivity.
    + now rewrite app_nil_r.
  - cbn [List.filter].
    destruct (OptionsReader.priority v =? p); rewrite IH; reflexivity.
Qed.

Lemma set_readers_compose f g this :
  set_readers g (set_readers f this) = set_readers (fun arr => g (f arr)) this.
Proof. reflexivity. Qed.

Lemma addReaders_eq (rs : list OptionsReader.t) this :
  for_of rs addReader this =
  (Normal tt,
   set_readers (fun arr => fold_left insertPrioritySorted rs arr) this).
Proof.
  revert this. induction rs as [|r rest IH]; intros this.
  - destruct this; reflexivity.
  - cbn [for_of]. unfold bind, addReader at 1, modify.
    rewrite IH. reflexivity.
Qed.

Lemma insert_all_sorted (rs arr : list OptionsReader.t) :
  StronglySorted priority_le arr ->
  StronglySorted priority_le (fold_left insertPrioritySorted rs arr).
Proof.
  revert arr. induction rs as [|r rest IH]; intros arr Hs; simpl; auto.
  apply IH. now apply insertPrioritySorted_sorted.
Qed.

Lemma insert_all_stable p (rs arr : list OptionsReader.t) :
  StronglySorted priority_le arr ->
  with_priority p (fold_left insertPrioritySorted rs arr)
  = with_priority p arr ++ with_priority p rs.
Proof.
  revert arr. induction rs as [|r rest IH]; intros arr Hs; simpl.
  - now rewrite app_nil_r.
  - rewrite IH by now apply insertPrioritySorted_sorted.
    rewrite insertPrioritySorted_stable by exact Hs.
    rewrite <- app_assoc. f_equal.
    unfold with_priority; simpl.
    destruct (OptionsReader.priority r =? p); reflexivity.
Qed.

Lemma insert_all_perm (rs arr : list OptionsReader.t) :
  Permutation (fold_left insertPrioritySorted rs arr) (arr ++ rs).
Proof.
  revert arr. induction rs as [|r rest IH]; intros arr; simpl.
  - now rewrite app_nil_r.
  - rewrite IH, insertPrioritySorted_perm.
    change (r :: arr) with ([r] ++ arr).
    rewrite (Permutation_app_comm [r] arr), <- app_assoc. reflexivity.
Qed.

Lemma removeReaderByName_sorted (name_ : string) this :
  StronglySorted priority_le (_readers this) ->
  StronglySorted priority_le
    (_readers (snd (removeReaderByName name_ this))).
Proof.
  simpl. generalize (_readers this).
  induction 1 as [|v rest Hsorted IH Hall]; simpl; [constructor|].
  destruct (negb (String.eqb (OptionsReader.name v) name_)); [|exact IH].
  constructor; [exact IH|].
  apply List.Forall_forall. intros r Hr. apply filter_In in Hr.
  rewrite List.Forall_forall in Hall. now apply Hall.
Qed.

Lemma nth_error_skipn {A} (l : list A) (n : nat) :
  List.skipn n l =
  match nth_error l n with
  | Some x => x :: List.skipn (S n) l
  | None => []
  end.
Proof.
  revert n. induction l as [|y l IH]; intros [|n]; try reflexivity.
  simpl. apply IH.
Qed.

(** While the readers leave the array alone, the loop calls what is left
    of it from the position on, and is over within as many steps and one
    more. *)
Lemma read_from_call_each (arr : list OptionsReader.t) :
  readers_leave_array ->
  forall fuel index detached (logger : Logger) this,
    walked detached this = arr ->
    (length arr - index < fuel)%nat ->
    read_from fuel index detached logger this
    = Some (call_each (List.skipn index arr) logger this).
Proof.
  intros Hleave. induction fuel as [|fuel IH];
    intros index detached logger this Harr Hfuel; [lia|].
  cbn [read_from]. rewrite Harr, (nth_error_skipn arr index).
  destruct (nth_error arr index) as [reader|] eqn:Hnth; [|reflexivity].
  cbn [call_each].
  destruct (completion (reader_read reader logger this)) as [logger'|e];
    [|reflexivity].
  apply IH.
  - destruct detached as [a|]; [exact Harr|].
    rewrite <- Harr. apply Hleave.
  - assert (index < length arr)%nat
      by (apply nth_error_Some; congruence).
    lia.
Qed.


(** *** Storing defaults: [reset] *)

Lemma store_default_eq d this :
  store_default d this =
  if is_TypeScript d then (Normal tt, this)
  else match convert (defaultValue d) d with
       | Ok v => (Normal tt, set_values (insert (name d) v) this)
       | Err _ =>
           (Throw (mkError ("Failed to validate default value for "
                            +:+ name d)), this)
       end.
Proof.
  unfold store_default. destruct (is_TypeScript d); simpl; [reflexivity|].
  unfold bind. destruct (convert (defaultValue d) d); reflexivity.
Qed.

Lemma store_default_valid d this :
  default_valid d ->
  store_default d this
  = (Normal tt, set_values (fun bag => default_into bag d) this).
Proof.
  intros Hvalid. rewrite store_default_eq. unfold default_into.
  destruct (is_TypeScript d) eqn:Hts.
  - destruct this; reflexivity.
  - destruct Hvalid as [Hscope|[v Hv]]; [congruence|]. now rewrite Hv.
Qed.

Lemma store_defaults_valid (ds : list DeclarationOption) this :
  Forall default_valid ds ->
  for_of ds store_default this =
  (Normal tt, set_values (fun bag => fold_left default_into ds bag) this).
Proof.
  intros Hall. revert this.
  induction Hall as [|d rest Hd _ IH]; intros this.
  - destruct this; reflexivity.
  - cbn [for_of fold_left]. unfold bind.
    rewrite (store_default_valid d this Hd), IH. reflexivity.
Qed.

(** The default that ends up under a name is that of the declaration
    bearing the name, when only one registered declaration bears it. *)
Lemma defaults_lookup d v (ds : list DeclarationOption)
    (bag : gmap string Value) :
  is_TypeScript d = false ->
  convert (defaultValue d) d = Ok v ->
  (forall d', In d' ds -> name d' = name d -> d' = d) ->
  In d ds \/ bag !! name d = Some v ->
  fold_left default_into ds bag !! name d = Some v.
Proof.
  intros Hts Hv. revert bag.
  induction ds as [|d0 rest IH]; intros bag Honly Hin; simpl.
  - destruct Hin as [[]|]; assumption.
  - apply IH; [intros d' Hd'; apply Honly; now right|].
    destruct (decide (name d0 = name d)) as [Hname|Hname].
    + right. rewrite (Honly d0) by (auto; now left).
      unfold default_into. rewrite Hts, Hv. apply lookup_insert_eq.
    + destruct Hin as [[->|Hin]|Hbag]; [congruence|now left|right].
      unfold default_into. destruct (is_TypeScript d0); [assumption|].
      destruct (convert (defaultValue d0) d0); [|assumption].
      now rewrite lookup_insert_ne.
Qed.

Lemma reset_valid this :
  Forall default_valid (JSMap.values (_declarations this)) ->
  reset this =
  (Normal tt,
   set_compilerOptions (fun _ => ∅)
     (set_values (fun bag =>
        fold_left default_into (JSMap.values (_declarations this)) bag)
        this)).
Proof.
  intros Hall. unfold reset, bind, gets, modify.
  rewrite (store_defaults_valid _ this Hall). reflexivity.
Qed.

(** [reset] throws exactly when a registered default is rejected. *)
Lemma reset_throws this :
  ~ Forall default_valid (JSMap.values (_declarations this)) ->
  exists e after, reset this = (Throw e, after).
Proof.
  intros Hnot. unfold reset, bind, gets.
  set (ds := JSMap.values (_declarations this)) in *.
  assert (H : exists e after, for_of ds store_default this = (Throw e, after)).
  { clearbody ds. revert this.
    induction ds as [|d rest IH]; intros this.
    - exfalso. apply Hnot. constructor.
    - cbn [for_of]. unfold bind. rewrite store_default_eq.
      destruct (is_TypeScript d) eqn:Hts.
      + apply IH. intros Hrest. apply Hnot. constructor; [now left|exact Hrest].
      + destruct (convert (defaultValue d) d) as [v|err] eqn:Hv.
        * apply IH. intros Hrest. apply Hnot.
          constructor; [right; eauto|exact Hrest].
        * eauto. }
  destruct H as (e & after & ->). eauto.
Qed.

(** C4 (amended).  When every registered declaration outside the
    TypeScript scope has a default that converts, [reset()] returns
    normally; after it [_compilerOptions] is empty, the declarations are
    as before, and [getValue] of every declared option outside the
    TypeScript scope whose canonical name no other registered declaration
    object bears gives the converted default of its declaration. *)
Theorem reset_restores_defaults this :
  Forall default_valid (JSMap.values (_declarations this)) ->
  exists after,
    reset this = (Normal tt, after)
    /\ _compilerOptions after = ∅
    /\ _declarations after = _declarations this
    /\ (forall (name_ : string) d,
        getDeclaration after name_ = Some d ->
        is_TypeScript d = false ->
        (forall d', In d' (JSMap.values (_declarations this)) ->
                    name d' = name d -> d' = d) ->
        exists v, convert (defaultValue d) d = Ok v
                  /\ getValue name_ after = (Normal v, after)).
Proof.
  intros Hall. eexists. split; [now apply reset_valid|].
  repeat split.
  intros n d Hd Hts Honly.
  assert (Hin : In d (JSMap.values (_declarations this)))
    by (eapply JSMapFacts.get_Some_values; exact Hd).
  assert (Hvalid : default_valid d)
    by (rewrite List.Forall_forall in Hall; now apply Hall).
  destruct Hvalid as [Hscope|[v Hv]]; [congruence|].
  exists v. split; [exact Hv|].
  unfold getValue, bind. rewrite tryGetValue_eq, Hd, Hts. simpl.
  unfold property. now rewrite (defaults_lookup d v) by auto.
Qed.

(** *** [addDeclaration] *)

Lemma same_object_refl d : same_object d d = true.
Proof. apply Nat.eqb_refl. Qed.

Lemma register_name_eq d (name_ : string) this :
  register_name d name_ this =
  (Normal tt,
   if conflicts this d name_
   then set_logger (Logger_error (conflict_message name_)) this
   else set_declarations (JSMap.set (toLowerCase name_) d) this).
Proof.
  unfold register_name, conflicts, bind, gets, modify.
  destruct (getDeclaration this name_) as [decl|]; [|reflexivity].
  destruct (same_object decl d); reflexivity.
Qed.

(** Registering under one name does not change which names conflict. *)
Lemma register_name_conflicts d (name_ n : string) this :
  conflicts (snd (register_name d name_ this)) d n = conflicts this d n.
Proof.
  rewrite register_name_eq; simpl.
  destruct (conflicts this d name_) eqn:Hc; [reflexivity|].
  unfold conflicts, getDeclaration in *; simpl.
  destruct (decide (toLowerCase name_ = toLowerCase n)) as [E|E].
  - rewrite E in *. rewrite JSMapFacts.get_set_eq, same_object_refl.
    simpl. now rewrite Hc.
  - now rewrite JSMapFacts.get_set_ne.
Qed.

Lemma filter_pointwise {A} (f g : A -> bool) (l : list A) :
  (forall x, f x = g x) -> List.filter f l = List.filter g l.
Proof.
  intros E. induction l as [|x l IH]; simpl; [reflexivity|].
  now rewrite E, IH.
Qed.

(** The loop of [addDeclaration]: it completes; it logs one diagnostic for
    each name that conflicts, in order; it touches no bag; an entry of the
    registry either stays or becomes the declaration, and the latter only
    under a name that does not conflict. *)
Lemma register_names_effect d (names : list string) this :
  exists after,
    for_of names (register_name d) this = (Normal tt, after)
    /\ _logger after
       = _logger this
         ++ List.map conflict_message (List.filter (conflicts this d) names)
    /\ _values after = _values this
    /\ _compilerOptions after = _compilerOptions this
    /\ _readers after = _readers this
    /\ (forall key,
        JSMap.get key (_declarations after)
        = JSMap.get key (_declarations this)
        \/ (JSMap.get key (_declarations after) = Some d
            /\ exists n, In n names /\ conflicts this d n = false
                         /\ key = toLowerCase n)).
Proof.
  revert this. induction names as [|n rest IH]; intros this.
  - exists this. simpl. rewrite app_nil_r. repeat split; auto.
  - cbn [for_of]. unfold bind.
    pose proof (register_name_conflicts d n) as Hsame.
    specialize (Hsame) with (this := this).
    rewrite register_name_eq in *. simpl in Hsame.
    set (this1 := if conflicts this d n then _ else _) in *.
    destruct (IH this1) as (after & Hrun & Hlog & Hval & Hopt & Hrd & Hreg).
    exists after. split; [exact Hrun|].
    rewrite Hlog, Hval, Hopt, Hrd.
    rewrite (filter_pointwise (conflicts this1 d) (conflicts this d))
      by (intros x; apply Hsame).
    cbn [List.filter]. subst this1.
    destruct (conflicts this d n) eqn:Hc; simpl.
    + split; [unfold Logger_error; now rewrite <- app_assoc|].
      do 3 (split; [reflexivity|]).
      intros key. destruct (Hreg key) as [E|(E & n' & Hin & Hn' & ->)].
      * now left.
      * right. split; [exact E|]. exists n'.
        split; [now right|]. split; [|reflexivity].
        rewrite <- Hn'. symmetry. apply Hsame.
    + do 4 (split; [reflexivity|]).
      intros key. destruct (Hreg key) as [E|(E & n' & Hin & Hn' & ->)].
      * simpl in E.
        destruct (decide (toLowerCase n = key)) as [<-|Hne].
        -- right. rewrite E, JSMapFacts.get_set_eq. split; [reflexivity|].
           exists n. split; [now left|]. split; [exact Hc|reflexivity].
        -- left. now rewrite E, JSMapFacts.get_set_ne.
      * right. split; [exact E|]. exists n'.
        split; [now right|]. split; [|reflexivity].
        rewrite <- Hn'. symmetry. apply Hsame.
Qed.

(** Registering again under a name that already holds the object changes
    nothing. *)
Lemma register_name_again d (name_ : string) this :
  getDeclaration this name_ = Some d ->
  register_name d name_ this = (Normal tt, this).
Proof.
  intros Hd. rewrite register_name_eq. unfold conflicts.
  rewrite Hd, same_object_refl. simpl.
  now rewrite set_declarations_id by now apply JSMapFacts.set_id.
Qed.

Lemma register_names_again d (names : list string) this :
  (forall n, In n names -> getDeclaration this n = Some d) ->
  for_of names (register_name d) this = (Normal tt, this).
Proof.
  induction names as [|n rest IH]; intros Hall; [reflexivity|].
  cbn [for_of]. unfold bind.
  rewrite register_name_again by (apply Hall; now left).
  apply IH. intros n' Hn'. apply Hall. now right.
Qed.

(** C1 (amended).  Adding again a declaration object that is registered
    under its name and under its short name emits no diagnostic and leaves
    the registry, the compiler options and the values of all other names
    as they are.  The value of the option itself is not kept: for a
    declaration outside the TypeScript scope it becomes the converted
    default again (and the call throws if the default does not convert);
    for a declaration of the TypeScript scope the call changes nothing. *)
Theorem addDeclaration_same_object d this :
  getDeclaration this (name d) = Some d ->
  (forall s, truthy_short d = Some s -> getDeclaration this s = Some d) ->
  exists c after,
    addDeclaration d this = (c, after)
    /\ _logger after = _logger this
    /\ _declarations after = _declarations this
    /\ _compilerOptions after = _compilerOptions this
    /\ (forall key, key <> name d -> _values after !! key = _values this !! key)
    /\ (is_TypeScript d = true -> c = Normal tt /\ after = this)
    /\ (forall v, is_TypeScript d = false ->
        convert (defaultValue d) d = Ok v ->
        c = Normal tt /\ _values after !! name d = Some v)
    /\ (forall err, is_TypeScript d = false ->
        convert (defaultValue d) d = Err err ->
        c = Throw (mkError ("Failed to validate default value for "
                            +:+ name d))
        /\ after = this).
Proof.
  intros Hname Hshort. unfold addDeclaration, bind.
  rewrite register_names_again.
  2:{ unfold declaration_names. intros n [<-|Hn]; [exact Hname|].
      destruct (truthy_short d) as [s|]; [|destruct Hn].
      destruct Hn as [<-|[]]. now apply Hshort. }
  rewrite store_default_eq.
  destruct (is_TypeScript d) eqn:Hts.
  - exists (Normal tt), this. split; [reflexivity|].
    do 4 (split; [reflexivity|]).
    split; [auto|]. split; intros; discriminate.
  - destruct (convert (defaultValue d) d) as [v|err] eqn:Hv.
    + eexists _, _. split; [reflexivity|]. simpl.
      do 3 (split; [reflexivity|]).
      split; [intros key Hkey; now rewrite lookup_insert_ne|].
      split; [discriminate|].
      split; [|intros; discriminate].
      intros v' _ [= <-]. split; [reflexivity|apply lookup_insert_eq].
    + eexists _, _. split; [reflexivity|].
      do 4 (split; [reflexivity|]).
      split; [discriminate|].
      split; [intros; discriminate|]. auto.
Qed.

(** C2 (amended).  Let a different declaration object [d1] be registered
    under one of the names (canonical or short) of [d2].  Then
    [addDeclaration(d2)] leaves [d1] registered under that name; it emits
    one conflict diagnostic for each name of [d2] that another object
    holds, that name among them; it completes normally when [d2] is of the
    TypeScript scope or its default converts, and throws only for a
    default that does not convert; it leaves the compiler options and the
    value stored under every name other than the canonical name of [d2]
    as they are. *)
Theorem addDeclaration_conflict d1 d2 (name_ : string) this :
  In name_ (declaration_names d2) ->
  getDeclaration this name_ = Some d1 ->
  same_object d1 d2 = false ->
  let emitted :=
    List.map conflict_message
      (List.filter (conflicts this d2) (declaration_names d2)) in
  exists c after,
    addDeclaration d2 this = (c, after)
    /\ getDeclaration after name_ = Some d1
    /\ _logger after = _logger this ++ emitted
    /\ In (conflict_message name_) emitted
    /\ (default_valid d2 -> c = Normal tt)
    /\ (forall e, c = Throw e ->
        is_TypeScript d2 = false
        /\ exists err, convert (defaultValue d2) d2 = Err err)
    /\ _compilerOptions after = _compilerOptions this
    /\ (forall key, key <> name d2 ->
        _values after !! key = _values this !! key)
    /\ (is_TypeScript d2 = true -> _values after = _values this).
Proof.
  intros Hin Hd1 Hother emitted.
  assert (Hconf : conflicts this d2 name_ = true)
    by (unfold conflicts; now rewrite Hd1, Hother).
  destruct (register_names_effect d2 (declaration_names d2) this)
    as (mid & Hrun & Hlog & Hval & Hopt & _ & Hreg).
  assert (Hkept : getDeclaration mid name_ = Some d1).
  { unfold getDeclaration.
    destruct (Hreg (toLowerCase name_)) as [E|(_ & n & _ & Hn & E)].
    - now rewrite E.
    - exfalso. unfold conflicts, getDeclaration in Hn, Hconf.
      rewrite <- E in Hn. rewrite Hn in Hconf. discriminate. }
  assert (Hemitted : In (conflict_message name_) emitted).
  { apply in_map, filter_In. split; assumption. }
  unfold addDeclaration, bind. rewrite Hrun, store_default_eq.
  destruct (is_TypeScript d2) eqn:Hts.
  - exists (Normal tt), mid. split; [reflexivity|].
    do 3 (split; [assumption|]). split; [reflexivity|].
    split; [discriminate|]. split; [assumption|].
    split; [intros key _; now rewrite Hval|auto].
  - destruct (convert (defaultValue d2) d2) as [v|err] eqn:Hv.
    + eexists _, _. split; [reflexivity|]. simpl.
      do 3 (split; [assumption|]). split; [reflexivity|].
      split; [discriminate|]. split; [assumption|].
      split; [|discriminate].
      intros key Hkey. now rewrite lookup_insert_ne, Hval.
    + eexists _, _. split; [reflexivity|].
      do 3 (split; [assumption|]).
      split; [intros [Hscope|[v Hv']]; congruence|].
      split; [intros e _; split; eauto|].
      split; [assumption|].
      split; [intros key _; now rewrite Hval|discriminate].
Qed.

(** *** [removeDeclarationByName] *)

Lemma removeDeclarationByName_eq (name_ : string) this :
  removeDeclarationByName name_ this =
  (Normal tt,
   match getDeclaration this name_ with
   | None => this
   | Some d =>
       set_values (delete (name d))
         (set_declarations
            (fun m =>
               let m' := JSMap.delete (toLowerCase (name d)) m in
               match truthy_short d with
               | Some s => JSMap.delete (toLowerCase s) m'
               | None => m'
               end) this)
   end).
Proof.
  unfold removeDeclarationByName, bind, gets, modify, ret.
  destruct (getDeclaration this name_) as [d|]; [|reflexivity].
  destruct (truthy_short d); reflexivity.
Qed.

(** C9 (amended).  When [name] finds no declaration,
    [removeDeclarationByName(name)] changes nothing.  When it finds [d], the
    registry afterwards has no entry under the lowered canonical name of
    [d] nor under its lowered short name, [_values] has lost the entry
    under the canonical name of [d] and is otherwise as before, and
    [_compilerOptions] is as before: a value set for an option of the
    TypeScript scope stays.  If [name] is, up to case, the canonical or
    the short name of [d], [getValue(name)] then throws the unknown-option
    error. *)
Theorem removeDeclarationByName_effect (name_ : string) this :
  (getDeclaration this name_ = None ->
   removeDeclarationByName name_ this = (Normal tt, this))
  /\ (forall d, getDeclaration this name_ = Some d ->
      exists after,
        removeDeclarationByName name_ this = (Normal tt, after)
        /\ getDeclaration after (name d) = None
        /\ (forall s, truthy_short d = Some s -> getDeclaration after s = None)
        /\ _values after = delete (name d) (_values this)
        /\ _values after !! name d = None
        /\ _compilerOptions after = _compilerOptions this
        /\ (toLowerCase name_ = toLowerCase (name d)
            \/ (exists s, truthy_short d = Some s
                          /\ toLowerCase name_ = toLowerCase s) ->
            getValue name_ after
            = (Throw (mkError ("Unknown option '" +:+ name_ +:+ "'")),
               after))).
Proof.
  rewrite removeDeclarationByName_eq. split.
  - intros ->. reflexivity.
  - intros d ->. eexists. split; [reflexivity|].
    assert (Hname : forall after,
              getDeclaration after name_ = None ->
              getValue name_ after
              = (Throw (mkError ("Unknown option '" +:+ name_ +:+ "'")),
                 after)).
    { intros after Hnone. unfold getValue, bind.
      now rewrite tryGetValue_eq, Hnone. }
    destruct (truthy_short d) as [s|] eqn:Hshort;
      unfold getDeclaration in *; simpl.
    + split; [apply JSMapFacts.get_delete_None, JSMapFacts.get_delete_eq|].
      split; [intros s' [= <-]; apply JSMapFacts.get_delete_eq|].
      split; [reflexivity|]. split; [apply lookup_delete_eq|].
      split; [reflexivity|].
      intros [E|(s' & [= <-] & E)]; apply Hname; simpl; rewrite E.
      * apply JSMapFacts.get_delete_None, JSMapFacts.get_delete_eq.
      * apply JSMapFacts.get_delete_eq.
    + split; [apply JSMapFacts.get_delete_eq|].
      split; [discriminate|].
      split; [reflexivity|]. split; [apply lookup_delete_eq|].
      split; [reflexivity|].
      intros [E|(s' & [=] & _)]. apply Hname; simpl; rewrite E.
      apply JSMapFacts.get_delete_eq.
Qed.

(** *** What the methods keep true *)

Lemma keyed_by_names_new (logger : Logger) :
  keyed_by_names (Options_new logger).
Proof. intros key d H. discriminate. Qed.

Lemma keyed_by_names_same_declarations this after :
  _declarations after = _declarations this ->
  keyed_by_names this -> keyed_by_names after.
Proof. unfold keyed_by_names. now intros ->. Qed.

Lemma store_default_declarations d this :
  _declarations (snd (store_default d this)) = _declarations this.
Proof.
  rewrite store_default_eq. destruct (is_TypeScript d); [reflexivity|].
  destruct (convert (defaultValue d) d); reflexivity.
Qed.

Lemma addDeclaration_keyed_by_names d this :
  keyed_by_names this -> keyed_by_names (snd (addDeclaration d this)).
Proof.
  intros Hok.
  destruct (register_names_effect d (declaration_names d) this)
    as (mid & Hrun & _ & _ & _ & _ & Hreg).
  unfold addDeclaration, bind. rewrite Hrun.
  apply (keyed_by_names_same_declarations mid).
  { apply store_default_declarations. }
  intros key d' Hget.
  destruct (Hreg key) as [E|(E & n & Hin & _ & ->)].
  - apply Hok. now rewrite <- E.
  - rewrite E in Hget. injection Hget as <-.
    unfold declaration_names in Hin. destruct Hin as [<-|Hin]; [now left|].
    destruct (truthy_short d) as [s|]; [|destruct Hin].
    destruct Hin as [<-|[]]. right. eauto.
Qed.

Lemma removeDeclarationByName_keyed_by_names (name_ : string) this :
  keyed_by_names this ->
  keyed_by_names (snd (removeDeclarationByName name_ this)).
Proof.
  intros Hok. rewrite removeDeclarationByName_eq. simpl.
  destruct (getDeclaration this name_) as [d|]; [|exact Hok].
  intros key d' Hget. simpl in Hget. apply Hok.
  destruct (truthy_short d);
    repeat (apply JSMapFacts.get_delete_Some in Hget); exact Hget.
Qed.

(** In such a container a name finds a declaration only if it is, up to
    case, its canonical or its short name. *)
Lemma keyed_by_names_lookup (name_ : string) d this :
  keyed_by_names this ->
  getDeclaration this name_ = Some d ->
  toLowerCase name_ = toLowerCase (name d)
  \/ exists s, truthy_short d = Some s /\ toLowerCase name_ = toLowerCase s.
Proof. intros Hok Hd. now apply Hok. Qed.

Lemma register_names_values d (names : list string) this d' :
  In d' (JSMap.values
           (_declarations (snd (for_of names (register_name d) this)))) ->
  d' = d \/ In d' (JSMap.values (_declarations this)).
Proof.
  revert this. induction names as [|n rest IH]; intros this; [now right|].
  cbn [for_of]. unfold bind. rewrite register_name_eq.
  intros Hin. apply IH in Hin. destruct Hin as [|Hin]; [now left|].
  destruct (conflicts this d n); simpl in Hin; [now right|].
  now apply JSMapFacts.values_set in Hin.
Qed.

(** A call of [addDeclaration] that completes leaves only declarations
    whose defaults can be stored, so that [reset] completes after it. *)
Lemma addDeclaration_defaults_valid d this after :
  Forall default_valid (JSMap.values (_declarations this)) ->
  addDeclaration d this = (Normal tt, after) ->
  Forall default_valid (JSMap.values (_declarations after)).
Proof.
  intros Hall Hrun. unfold addDeclaration, bind in Hrun.
  pose proof (register_names_values d (declaration_names d) this) as Hvalues.
  destruct (register_names_effect d (declaration_names d) this)
    as (mid & Hmid & _).
  rewrite Hmid in Hrun, Hvalues. simpl in Hvalues.
  pose proof (store_default_declarations d mid) as Hdecl.
  rewrite Hrun in Hdecl. simpl in Hdecl. rewrite Hdecl.
  assert (Hd : default_valid d).
  { rewrite store_default_eq in Hrun. unfold default_valid.
    destruct (is_TypeScript d); [now left|].
    destruct (convert (defaultValue d) d); [right; eauto|discriminate]. }
  apply List.Forall_forall. intros d' Hin.
  destruct (Hvalues d' Hin) as [->|Hold]; [exact Hd|].
  rewrite List.Forall_forall in Hall. now apply Hall.
Qed.

End Properties.

(** ** More facts about [Map] *)

Module JSMapMoreFacts.
Section JSMapMoreFacts.
Context {T : Type}.
Implicit Types (m : JSMap.t T) (k : string) (v : T).
Import JSMap.

Lemma delete_set_eq k v m : delete k (set k v m) = delete k m.
Proof.
  induction m as [|[k' v'] rest IH]; simpl.
  - now rewrite String.eqb_refl.
  - destruct (String.eqb k k') eqn:E; simpl; rewrite E; congruence.
Qed.

Lemma delete_set_ne k k' v m :
  k <> k' -> delete k (set k' v m) = set k' v (delete k m).
Proof.
  intros Hne. induction m as [|[k0 v0] rest IH]; simpl.
  - destruct (String.eqb_spec k k'); [congruence|reflexivity].
  - destruct (String.eqb_spec k' k0) as [->|Hk']; simpl.
    + destruct (String.eqb_spec k k0); [congruence|]. simpl.
      now rewrite String.eqb_refl.
    + destruct (String.eqb_spec k k0) as [->|Hk]; [exact IH|]. simpl.
      destruct (String.eqb_spec k' k0); [congruence|]. now rewrite IH.
Qed.

Lemma keys_set k v m x :
  In x (List.map fst (set k v m)) <-> x = k \/ In x (List.map fst m).
Proof.
  induction m as [|[k' v'] rest IH]; simpl.
  - intuition congruence.
  - destruct (String.eqb_spec k k') as [->|Hne]; simpl.
    + intuition congruence.
    + rewrite IH. intuition congruence.
Qed.

Lemma set_NoDup k v m :
  NoDup (List.map fst m) -> NoDup (List.map fst (set k v m)).
Proof.
  induction m as [|[k' v'] rest IH]; simpl; intros Hnd.
  - apply NoDup_singleton.
  - apply NoDup_cons in Hnd as [Hnotin Hrest].
    destruct (String.eqb_spec k k') as [->|Hne]; simpl.
    + now apply NoDup_cons.
    + apply NoDup_cons. split; [|now apply IH].
      rewrite list_elem_of_In, keys_set, <- list_elem_of_In.
      intros [->|Hin]; [congruence|contradiction].
Qed.

Lemma keys_delete k m x :
  In x (List.map fst (delete k m)) -> In x (List.map fst m).
Proof.
  induction m as [|[k' v'] rest IH]; simpl; [tauto|].
  destruct (String.eqb k k'); simpl; intuition.
Qed.

Lemma delete_NoDup k m :
  NoDup (List.map fst m) -> NoDup (List.map fst (delete k m)).
Proof.
  induction m as [|[k' v'] rest IH]; simpl; intros Hnd; [constructor|].
  apply NoDup_cons in Hnd as [Hnotin Hrest].
  destruct (String.eqb k k'); simpl; [now apply IH|].
  apply NoDup_cons. split; [|now apply IH].
  intros Hin. apply Hnotin. apply list_elem_of_In.
  eapply keys_delete. apply list_elem_of_In. exact Hin.
Qed.

Lemma get_Some_key k v m : get k m = Some v -> In k (List.map fst m).
Proof.
  induction m as [|[k0 v0] rest IH]; simpl; [discriminate|].
  destruct (String.eqb_spec k k0) as [->|Hne]; [now left|right; auto].
Qed.

Lemma values_get v m :
  NoDup (List.map fst m) -> In v (values m) -> exists k, get k m = Some v.
Proof.
  unfold values.
  induction m as [|[k' v'] rest IH]; simpl; intros Hnd Hin; [destruct Hin|].
  apply NoDup_cons in Hnd as [Hnotin Hrest].
  destruct Hin as [<-|Hin].
  - exists k'. now rewrite String.eqb_refl.
  - destruct (IH Hrest Hin) as (k & Hk). exists k.
    destruct (String.eqb_spec k k') as [->|Hne]; [|exact Hk].
    exfalso. apply Hnotin. apply list_elem_of_In.
    eapply get_Some_key. exact Hk.
Qed.
End JSMapMoreFacts.
End JSMapMoreFacts.

(** ** Further properties of the container *)

Section MoreProperties.
Context {converter : Converter} {readers : ReaderCode}.
Implicit Types (this after : Options) (d declaration : DeclarationOption).
Implicit Types (value : Value).

(** *** Lookups *)

Lemma lower_ascii_idempotent c : lower_ascii (lower_ascii c) = lower_ascii c.
Proof. destruct c as [[] [] [] [] [] [] [] []]; reflexivity. Qed.

Lemma toLowerCase_idempotent (s : string) :
  toLowerCase (toLowerCase s) = toLowerCase s.
Proof.
  induction s as [|c s IH]; simpl; [reflexivity|].
  now rewrite lower_ascii_idempotent, IH.
Qed.

Lemma getDeclaration_case (n1 n2 : string) this :
  toLowerCase n1 = toLowerCase n2 ->
  getDeclaration this n1 = getDeclaration this n2.
Proof. unfold getDeclaration. now intros ->. Qed.

(** X1.  Names are looked up without regard to letter case: two names
    with the same lower-case form (a name and its lower-case form, for
    one) find the same declaration; when they find one, [tryGetValue],
    [getValue], [isDefault] and [setValue] do the same on both, and
    [removeDeclarationByName] does the same on both in any case. *)
Theorem lookup_ignores_case (n1 n2 : string) this :
  toLowerCase n1 = toLowerCase n2 ->
  getDeclaration this n1 = getDeclaration this n2
  /\ getDeclaration this (toLowerCase n1) = getDeclaration this n1
  /\ removeDeclarationByName n1 this = removeDeclarationByName n2 this
  /\ (forall value,
      snd (setValue n1 value this) = snd (setValue n2 value this))
  /\ (forall d, getDeclaration this n1 = Some d ->
      tryGetValue n1 this = tryGetValue n2 this
      /\ getValue n1 this = getValue n2 this
      /\ isDefault n1 this = isDefault n2 this
      /\ forall value, setValue n1 value this = setValue n2 value this).
Proof.
  intros E. pose proof (getDeclaration_case n1 n2 this E) as Hsame.
  split; [exact Hsame|].
  split; [apply getDeclaration_case, toLowerCase_idempotent|].
  split; [now rewrite !removeDeclarationByName_eq, Hsame|].
  split.
  - intros value. rewrite !setValue_eq, <- Hsame.
    destruct (getDeclaration this n1) as [d|]; [|reflexivity].
    destruct (convert value d); reflexivity.
  - intros d Hd.
    assert (Htry : tryGetValue n1 this = tryGetValue n2 this)
      by now rewrite !tryGetValue_eq, <- Hsame, Hd.
    assert (Hget : getValue n1 this = getValue n2 this)
      by (unfold getValue, bind; now rewrite Htry).
    repeat split; auto.
    + unfold isDefault, bind. rewrite Hget.
      destruct (getValue n2 this) as [[v|e] st]; [|reflexivity].
      unfold gets. now rewrite (getDeclaration_case n1 n2 st E).
    + intros value. now rewrite !setValue_eq, <- Hsame, Hd.
Qed.

(** X2.  [getValue] and [isDefault] cannot be used on an option of the
    TypeScript scope: on a name that finds such a declaration both throw
    the error that points to [getCompilerOptions], whatever value the
    option holds, and leave the container as it is. *)
Theorem getValue_TypeScript_throws (name_ : string) this d :
  getDeclaration this name_ = Some d ->
  is_TypeScript d = true ->
  let wrong_scope :=
    mkError "TypeScript options must be fetched with getCompilerOptions." in
  getValue name_ this = (Throw wrong_scope, this)
  /\ isDefault name_ this = (Throw wrong_scope, this).
Proof.
  intros Hd Hts wrong_scope. unfold isDefault, getValue, bind.
  rewrite tryGetValue_eq, Hd, Hts. split; reflexivity.
Qed.

(** *** [setValue] read back *)

Lemma getValue_stored (name_ : string) this d :
  getDeclaration this name_ = Some d ->
  is_TypeScript d = false ->
  getValue name_ this = (Normal (property (_values this) (name d)), this).
Proof.
  intros Hd Hts. unfold getValue, bind.
  now rewrite tryGetValue_eq, Hd, Hts.
Qed.

(** X3.  What [setValue] stores is what is read back.  After
    [setValue(name, value)] on an option outside the TypeScript scope whose
    conversion gives [v], [getValue] under any name that finds the same
    declaration gives [v], and [isDefault] says whether [v] is the raw
    default of the declaration.  For an option of the TypeScript scope the
    value is in [_compilerOptions] and [getValue] still throws. *)
Theorem setValue_read_back (name_ : string) value this d v :
  getDeclaration this name_ = Some d ->
  convert value d = Ok v ->
  let after := snd (setValue name_ value this) in
  (is_TypeScript d = false ->
   forall n : string, getDeclaration this n = Some d ->
     getValue n after = (Normal v, after)
     /\ isDefault n after
        = (Normal (strict_equals v (defaultValue d)), after))
  /\ (is_TypeScript d = true ->
      _compilerOptions after !! name d = Some v
      /\ exists e, getValue name_ after = (Throw e, after)).
Proof.
  intros Hd Hc after. subst after. rewrite setValue_eq, Hd, Hc. simpl.
  split; intros Hts; rewrite Hts.
  - intros n Hn.
    assert (Hget : forall st, _declarations st = _declarations this ->
              _values st !! name d = Some v ->
              getValue n st = (Normal v, st)).
    { intros st Hdecl Hv. rewrite (getValue_stored n st d); auto.
      - unfold property. now rewrite Hv.
      - unfold getDeclaration in *. now rewrite Hdecl. }
    split.
    + apply Hget; [reflexivity|apply lookup_insert_eq].
    + unfold isDefault, bind. rewrite Hget;
        [|reflexivity|apply lookup_insert_eq].
      unfold gets. change (getDeclaration (set_values _ this) n)
        with (getDeclaration this n). now rewrite Hn.
  - split; [apply lookup_insert_eq|].
    eexists. unfold getValue, bind. rewrite tryGetValue_eq.
    change (getDeclaration (set_compilerOptions _ this) name_)
      with (getDeclaration this name_).
    rewrite Hd, Hts. reflexivity.
Qed.

(** X4.  The last write wins: of two [setValue] calls on names that find
    the same declaration, the second with a value that converts, only the
    second shows in the container. *)
Theorem setValue_last_wins (n1 n2 : string) (v1 v2 : Value) this d v :
  getDeclaration this n1 = Some d ->
  getDeclaration this n2 = Some d ->
  convert v2 d = Ok v ->
  snd (setValue n2 v2 (snd (setValue n1 v1 this)))
  = snd (setValue n2 v2 this).
Proof.
  intros H1 H2 Hc.
  rewrite (setValue_eq n1), H1.
  destruct (convert v1 d) as [c1|err]; simpl; [|reflexivity].
  rewrite !setValue_eq.
  destruct (is_TypeScript d) eqn:Hts.
  - change (getDeclaration (set_compilerOptions _ this) n2)
      with (getDeclaration this n2).
    rewrite H2, Hc, Hts. destruct this; unfold set_compilerOptions; simpl.
    now rewrite insert_insert_eq.
  - change (getDeclaration (set_values _ this) n2)
      with (getDeclaration this n2).
    rewrite H2, Hc, Hts. destruct this; unfold set_values; simpl.
    now rewrite insert_insert_eq.
Qed.

(** X5.  Setting one option does not change what another reads: after
    [setValue(name, value)], whatever it answers, [tryGetValue(other)]
    answers as before, unless the declarations the two names find are
    both outside the TypeScript scope and bear the same canonical name. *)
Theorem setValue_keeps_other (name_ other : string) value this :
  (forall d d', getDeclaration this name_ = Some d ->
                getDeclaration this other = Some d' ->
                is_TypeScript d = true \/ is_TypeScript d' = true
                \/ name d <> name d') ->
  fst (tryGetValue other (snd (setValue name_ value this)))
  = fst (tryGetValue other this).
Proof.
  intros Hapart. rewrite setValue_eq.
  destruct (getDeclaration this name_) as [d|] eqn:Hd; [|reflexivity].
  destruct (convert value d) as [v|err]; [|reflexivity]. simpl.
  rewrite !tryGetValue_eq. simpl.
  destruct (is_TypeScript d) eqn:Hts.
  - reflexivity.
  - change (getDeclaration (set_values _ this) other)
      with (getDeclaration this other).
    destruct (getDeclaration this other) as [d'|] eqn:Hd'; [|reflexivity].
    destruct (is_TypeScript d') eqn:Hts'; [reflexivity|].
    destruct (Hapart d d' eq_refl eq_refl) as [H|[H|H]]; try congruence.
    unfold property. simpl. now rewrite lookup_insert_ne.
Qed.

(** *** The reader pipeline *)

Lemma filter_sublist {A} (f : A -> bool) (l : list A) :
  sublist (List.filter f l) l.
Proof.
  induction l as [|x l IH]; simpl; [constructor|].
  destruct (f x); now constructor.
Qed.

Lemma filter_twice {A} (f : A -> bool) (l : list A) :
  List.filter f (List.filter f l) = List.filter f l.
Proof.
  induction l as [|x l IH]; simpl; [reflexivity|].
  destruct (f x) eqn:E; simpl; [rewrite E|]; congruence.
Qed.

(** X6.  [removeReaderByName(name)] takes every reader of that name out of
    the pipeline and nothing else: the readers left are those of other
    names, in the order they had, so a pipeline in priority order stays in
    priority order; the rest of the container is untouched, and a second
    call changes nothing. *)
Theorem removeReaderByName_effect (name_ : string) this :
  let after := snd (removeReaderByName name_ this) in
  (forall r, In r (_readers after)
             <-> In r (_readers this) /\ OptionsReader.name r <> name_)
  /\ sublist (_readers after) (_readers this)
  /\ (StronglySorted priority_le (_readers this) ->
      StronglySorted priority_le (_readers after))
  /\ _declarations after = _declarations this
  /\ _values after = _values this
  /\ _compilerOptions after = _compilerOptions this
  /\ snd (removeReaderByName name_ after) = after.
Proof.
  intros after. split; [|split; [|split; [|repeat split]]].
  - intros r. subst after. simpl. rewrite filter_In.
    rewrite Bool.negb_true_iff.
    destruct (String.eqb_spec (OptionsReader.name r) name_);
      intuition congruence.
  - apply filter_sublist.
  - apply removeReaderByName_sorted.
  - subst after. destruct this. unfold removeReaderByName, modify, set_readers.
    simpl. now rewrite filter_twice.
Qed.

Lemma insertPrioritySorted_front arr item :
  Forall (fun v => OptionsReader.priority item < OptionsReader.priority v) arr ->
  insertPrioritySorted arr item = item :: arr.
Proof.
  destruct 1 as [|v rest Hv _]; simpl; [reflexivity|].
  apply Z.ltb_lt in Hv. now rewrite Hv.
Qed.

Lemma filter_insertPrioritySorted (f : OptionsReader.t -> bool) arr item :
  StronglySorted priority_le arr ->
  List.filter f (insertPrioritySorted arr item)
  = if f item
    then insertPrioritySorted (List.filter f arr) item
    else List.filter f arr.
Proof.
  induction 1 as [|v rest Hsorted IH Hall].
  - simpl. destruct (f item); reflexivity.
  - cbn [insertPrioritySorted].
    destruct (Z.ltb_spec (OptionsReader.priority item)
                (OptionsReader.priority v)) as [Hlt|Hge].
    + change (List.filter f (item :: v :: rest))
        with (if f item then item :: List.filter f (v :: rest)
              else List.filter f (v :: rest)).
      destruct (f item) eqn:Hitem; [|reflexivity].
      symmetry. apply insertPrioritySorted_front.
      apply List.Forall_forall. intros x Hx.
      apply filter_In in Hx. destruct Hx as [[<-|Hx] _]; [exact Hlt|].
      rewrite List.Forall_forall in Hall. specialize (Hall x Hx).
      unfold priority_le in Hall. lia.
    + cbn [List.filter]. rewrite IH.
      destruct (f v), (f item); simpl; try reflexivity.
      apply Z.ltb_ge in Hge. now rewrite Hge.
Qed.

(** X7.  Adding a reader and removing readers by name go together as one
    expects, in a pipeline in priority order: removing by the name of the
    reader just added gives what removing alone gives, and removing by
    another name can as well be done before the reader is added. *)
Theorem removeReaderByName_after_addReader (name_ : string)
    (reader : OptionsReader.t) this :
  StronglySorted priority_le (_readers this) ->
  snd (removeReaderByName name_ (snd (addReader reader this)))
  = if String.eqb (OptionsReader.name reader) name_
    then snd (removeReaderByName name_ this)
    else snd (addReader reader (snd (removeReaderByName name_ this))).
Proof.
  intros Hsorted. destruct this as [rs ds vs cs lg]. simpl in *.
  unfold set_readers; simpl.
  rewrite filter_insertPrioritySorted by exact Hsorted.
  destruct (String.eqb (OptionsReader.name reader) name_); reflexivity.
Qed.

(** *** Registering and unregistering *)

Lemma filter_none {A} (f : A -> bool) (l : list A) :
  (forall x, In x l -> f x = false) -> List.filter f l = [].
Proof.
  induction l as [|x l IH]; simpl; intros H; [reflexivity|].
  rewrite (H x) by now left. apply IH. intros y Hy. apply H. now right.
Qed.

(** A name of the declaration that does not conflict finds the
    declaration once the loop of [addDeclaration] is over. *)
Lemma register_names_registered d (names : list string) this (n : string) :
  In n names -> conflicts this d n = false ->
  getDeclaration (snd (for_of names (register_name d) this)) n = Some d.
Proof.
  revert this. induction names as [|n0 rest IH]; intros this Hin Hn;
    [destruct Hin|].
  cbn [for_of]. unfold bind.
  pose proof (register_name_conflicts d n0 n this) as Hsame.
  rewrite register_name_eq in *. simpl in Hsame.
  set (this1 := if conflicts this d n0 then _ else _) in *.
  destruct (in_dec string_dec n rest) as [Hrest|Hrest].
  - apply IH; [exact Hrest|]. now rewrite Hsame.
  - destruct Hin as [->|Hin]; [|contradiction].
    assert (H1 : getDeclaration this1 n = Some d).
    { subst this1. rewrite Hn. unfold getDeclaration. simpl.
      apply JSMapFacts.get_set_eq. }
    destruct (register_names_effect d rest this1)
      as (after & Hrun & _ & _ & _ & _ & Hreg).
    rewrite Hrun. simpl. unfold getDeclaration in *.
    destruct (Hreg (toLowerCase n)) as [E|[E _]]; congruence.
Qed.

(** X8.  Registering and reading back: when none of the names of a
    declaration is held by another object and its default can be stored,
    [addDeclaration] completes without a diagnostic; afterwards each of
    its names, in any letter case, finds the declaration, and for a
    declaration outside the TypeScript scope [getValue] under each of its
    names gives the converted default. *)
Theorem addDeclaration_registers d this :
  (forall n, In n (declaration_names d) -> conflicts this d n = false) ->
  default_valid d ->
  exists after,
    addDeclaration d this = (Normal tt, after)
    /\ _logger after = _logger this
    /\ _compilerOptions after = _compilerOptions this
    /\ (forall n n' : string, In n (declaration_names d) ->
        toLowerCase n' = toLowerCase n ->
        getDeclaration after n' = Some d)
    /\ (forall v (n : string), is_TypeScript d = false ->
        convert (defaultValue d) d = Ok v ->
        In n (declaration_names d) ->
        getValue n after = (Normal v, after)).
Proof.
  intros Hfree Hvalid.
  pose proof (register_names_registered d (declaration_names d) this) as Hfound.
  destruct (register_names_effect d (declaration_names d) this)
    as (mid & Hrun & Hlog & _ & Hopt & _ & _).
  rewrite Hrun in Hfound. simpl in Hfound.
  rewrite filter_none in Hlog by exact Hfree.
  simpl in Hlog. rewrite app_nil_r in Hlog.
  unfold addDeclaration, bind. rewrite Hrun, store_default_valid by exact Hvalid.
  eexists. split; [reflexivity|]. simpl.
  do 2 (split; [assumption|]).
  assert (Hnames : forall n n' : string, In n (declaration_names d) ->
            toLowerCase n' = toLowerCase n ->
            getDeclaration mid n' = Some d).
  { intros n n' Hin E. rewrite (getDeclaration_case n' n mid E). auto. }
  split; [exact Hnames|].
  intros v n Hts Hv Hin.
  rewrite (getValue_stored n _ d); [|now apply (Hnames n n)|exact Hts].
  unfold property, default_into. simpl. rewrite Hts, Hv.
  now rewrite lookup_insert_eq.
Qed.

(** X9.  Registering and unregistering: when the names of a declaration
    find nothing, no value is stored under its canonical name and its
    default can be stored, [addDeclaration] followed by
    [removeDeclarationByName] of its canonical name gives back the
    container as it was. *)
Theorem removeDeclarationByName_after_addDeclaration d this :
  (forall n, In n (declaration_names d) -> getDeclaration this n = None) ->
  _values this !! name d = None ->
  default_valid d ->
  removeDeclarationByName (name d) (snd (addDeclaration d this))
  = (Normal tt, this).
Proof.
  intros Hfree Hvalue Hvalid.
  assert (Hname : JSMap.get (toLowerCase (name d)) (_declarations this) = None)
    by (apply Hfree; now left).
  unfold addDeclaration, bind.
  assert (Hloop : for_of (declaration_names d) (register_name d) this
                  = (Normal tt,
                     set_declarations
                       (fun m =>
                          let m' := JSMap.set (toLowerCase (name d)) d m in
                          match truthy_short d with
                          | Some s => JSMap.set (toLowerCase s) d m'
                          | None => m'
                          end) this)).
  { unfold declaration_names.
    destruct (truthy_short d) as [s|] eqn:Hshort; cbn [for_of];
      unfold bind, ret;
      rewrite register_name_eq; unfold conflicts at 1, getDeclaration at 1;
      rewrite Hname; [|destruct this; reflexivity].
    rewrite register_name_eq. unfold conflicts, getDeclaration. simpl.
    destruct (decide (toLowerCase (name d) = toLowerCase s)) as [E|E].
    - rewrite <- E, JSMapFacts.get_set_eq, same_object_refl. reflexivity.
    - rewrite JSMapFacts.get_set_ne by exact E.
      assert (Hs : JSMap.get (toLowerCase s) (_declarations this) = None)
        by (apply Hfree; unfold declaration_names; rewrite Hshort;
            right; now left).
      rewrite Hs. reflexivity. }
  rewrite Hloop, store_default_valid by exact Hvalid.
  cbn [snd]. set (added := set_values _ _).
  rewrite removeDeclarationByName_eq.
  assert (Hfound : getDeclaration added (name d) = Some d).
  { subst added. unfold getDeclaration. simpl.
    destruct (truthy_short d) as [s|]; [|apply JSMapFacts.get_set_eq].
    destruct (decide (toLowerCase s = toLowerCase (name d))) as [E|E].
    - rewrite E. apply JSMapFacts.get_set_eq.
    - rewrite JSMapFacts.get_set_ne by exact E. apply JSMapFacts.get_set_eq. }
  rewrite Hfound. subst added. f_equal.
  destruct this as [rs ds vs cs lg]. unfold set_values, set_declarations.
  simpl in *. f_equal.
  - destruct (truthy_short d) as [s|] eqn:Hshort.
    + assert (Hs : JSMap.get (toLowerCase s) ds = None).
      { apply (Hfree s). right. rewrite ?Hshort. now left. }
      destruct (decide (toLowerCase (name d) = toLowerCase s)) as [E|E].
      * rewrite <- E, !JSMapMoreFacts.delete_set_eq.
        now rewrite !(JSMapFacts.delete_id _ ds) by exact Hname.
      * rewrite JSMapMoreFacts.delete_set_ne by exact E.
        rewrite !JSMapMoreFacts.delete_set_eq.
        rewrite (JSMapFacts.delete_id (toLowerCase (name d))) by exact Hname.
        now apply JSMapFacts.delete_id.
    + rewrite JSMapMoreFacts.delete_set_eq. now apply JSMapFacts.delete_id.
  - unfold default_into. destruct (is_TypeScript d).
    + now apply delete_id.
    + destruct (convert (defaultValue d) d);
        [now apply delete_insert_id|now apply delete_id].
Qed.

(** *** [addDeclarations] *)

Lemma for_of_app {A} (xs ys : list A) (body : A -> M unit) this :
  for_of (xs ++ ys) body this =
  match for_of xs body this with
  | (Normal _, mid) => for_of ys body mid
  | (Throw e, mid) => (Throw e, mid)
  end.
Proof.
  revert this. induction xs as [|x xs IH]; intros this; [reflexivity|].
  simpl. unfold bind. destruct (body x this) as [[[]|e] mid]; auto.
Qed.

Lemma addDeclaration_valid d this :
  default_valid d ->
  addDeclaration d this = (Normal tt, snd (addDeclaration d this)).
Proof.
  intros Hvalid. unfold addDeclaration, bind.
  destruct (register_names_effect d (declaration_names d) this)
    as (mid & Hrun & _).
  now rewrite Hrun, store_default_valid.
Qed.

Lemma addDeclaration_invalid d this err :
  is_TypeScript d = false ->
  convert (defaultValue d) d = Err err ->
  addDeclaration d this
  = (Throw (mkError ("Failed to validate default value for " +:+ name d)),
     snd (for_of (declaration_names d) (register_name d) this)).
Proof.
  intros Hts Herr. unfold addDeclaration, bind.
  destruct (register_names_effect d (declaration_names d) this)
    as (mid & Hrun & _).
  now rewrite Hrun, store_default_eq, Hts, Herr.
Qed.

Lemma addDeclarations_valid_run (ds : list DeclarationOption) this :
  Forall default_valid ds ->
  addDeclarations ds this = (Normal tt, snd (addDeclarations ds this)).
Proof.
  unfold addDeclarations. intros Hall. revert this.
  induction Hall as [|d rest Hd _ IH]; intros this; [reflexivity|].
  cbn [for_of]. unfold bind. rewrite addDeclaration_valid by exact Hd.
  apply IH.
Qed.

Lemma addDeclarations_defaults_valid (ds : list DeclarationOption) this :
  Forall default_valid ds ->
  Forall default_valid (JSMap.values (_declarations this)) ->
  Forall default_valid
    (JSMap.values (_declarations (snd (addDeclarations ds this)))).
Proof.
  unfold addDeclarations. intros Hall. revert this.
  induction Hall as [|d rest Hd _ IH]; intros this Hthis; [exact Hthis|].
  cbn [for_of]. unfold bind.
  pose proof (addDeclaration_valid d this Hd) as Hrun. rewrite Hrun.
  apply IH. eapply addDeclaration_defaults_valid; eassumption.
Qed.

(** X10.  Declarations whose defaults can be stored are all added: the
    call completes normally, and if the defaults of the declarations
    registered before could be stored, [reset] completes normally on the
    container it leaves. *)
Theorem addDeclarations_then_reset (ds : list DeclarationOption) this :
  Forall default_valid ds ->
  Forall default_valid (JSMap.values (_declarations this)) ->
  exists after after',
    addDeclarations ds this = (Normal tt, after)
    /\ reset after = (Normal tt, after')
    /\ _compilerOptions after' = ∅.
Proof.
  intros Hds Hthis. eexists _, _.
  split; [now apply addDeclarations_valid_run|].
  split.
  - apply reset_valid. now apply addDeclarations_defaults_valid.
  - reflexivity.
Qed.

(** X11.  A declaration outside the TypeScript scope whose default does
    not convert aborts [addDeclarations]: the call throws, none of the
    declarations after it is looked at, and the container is the one
    [addDeclaration] of that declaration alone leaves.  The declaration
    itself stays registered under each of its names that did not
    conflict, and from then on [reset] throws. *)
Theorem addDeclarations_aborts (pre post : list DeclarationOption) d err
    this :
  Forall default_valid pre ->
  is_TypeScript d = false ->
  convert (defaultValue d) d = Err err ->
  let before := snd (addDeclarations pre this) in
  let after := snd (addDeclaration d before) in
  addDeclarations (pre ++ d :: post) this
  = (Throw (mkError ("Failed to validate default value for " +:+ name d)),
     after)
  /\ (forall n : string, In n (declaration_names d) ->
      conflicts before d n = false ->
      getDeclaration after n = Some d
      /\ exists e after', reset after = (Throw e, after')).
Proof.
  intros Hpre Hts Herr before after. split.
  - unfold addDeclarations. rewrite for_of_app.
    pose proof (addDeclarations_valid_run pre this Hpre) as Hrun.
    unfold addDeclarations in Hrun. rewrite Hrun.
    cbn [for_of]. unfold bind. fold (addDeclarations pre this). fold before.
    subst after. now rewrite (addDeclaration_invalid d before err).
  - intros n Hin Hfree. subst after.
    rewrite (addDeclaration_invalid d before err) by assumption. cbn [snd].
    pose proof (register_names_registered d _ before n Hin Hfree) as Hfound.
    split; [exact Hfound|].
    apply reset_throws. intros Hall.
    rewrite List.Forall_forall in Hall.
    destruct (Hall d) as [Hscope|[v Hv]]; [|congruence|congruence].
    eapply JSMapFacts.get_Some_values. exact Hfound.
Qed.

(** *** [reset] *)

Lemma defaults_fold_lookup (ds : list DeclarationOption)
    (bag : gmap string Value) (key : string) :
  fold_left default_into ds bag !! key =
  match default_under key ds with
  | Some v => Some v
  | None => bag !! key
  end.
Proof.
  revert bag. induction ds as [|d rest IH]; intros bag; [reflexivity|].
  cbn [fold_left default_under]. rewrite IH.
  destruct (default_under key rest); [reflexivity|].
  unfold default_into. destruct (is_TypeScript d); [reflexivity|].
  destruct (convert (defaultValue d) d); [|reflexivity].
  destruct (String.eqb_spec (name d) key) as [->|Hne].
  - apply lookup_insert_eq.
  - now apply lookup_insert_ne.
Qed.

Lemma default_under_Some d v (ds : list DeclarationOption) :
  In d ds -> is_TypeScript d = false ->
  convert (defaultValue d) d = Ok v ->
  is_Some (default_under (name d) ds).
Proof.
  intros Hin Hts Hv. induction ds as [|d0 rest IH]; [destruct Hin|].
  cbn [default_under].
  destruct (default_under (name d) rest) eqn:E; [eauto|].
  destruct Hin as [->|Hin]; [|apply IH in Hin; destruct Hin; discriminate].
  rewrite Hts, Hv, String.eqb_refl. eauto.
Qed.

(** X12.  [reset] is idempotent: when the defaults registered can be
    stored, a second [reset] leaves the container the first one left. *)
Theorem reset_idempotent this :
  Forall default_valid (JSMap.values (_declarations this)) ->
  reset (snd (reset this)) = (Normal tt, snd (reset this)).
Proof.
  intros Hall. rewrite (reset_valid this Hall). cbn [snd].
  rewrite reset_valid by exact Hall.
  destruct this as [rs ds vs cs lg]. unfold set_compilerOptions, set_values.
  simpl. do 2 f_equal. apply map_eq. intros key.
  rewrite !defaults_fold_lookup. now destruct (default_under key _).
Qed.

Lemma reset_after_setValue (name_ : string) value this :
  Forall default_valid (JSMap.values (_declarations this)) ->
  reset (snd (setValue name_ value this)) = reset this.
Proof.
  intros Hall.
  assert (Hall' : Forall default_valid
            (JSMap.values (_declarations (snd (setValue name_ value this)))))
    by (change (snd (setValue name_ value this))
          with (setValue_state this (name_, value));
        now rewrite setValue_state_declarations).
  rewrite (reset_valid _ Hall'), (reset_valid _ Hall).
  rewrite setValue_eq.
  destruct (getDeclaration this name_) as [d|] eqn:Hd; [|reflexivity].
  destruct (convert value d) as [v|err]; [|reflexivity].
  destruct (is_TypeScript d) eqn:Hts;
    destruct this as [rs ds vs cs lg];
    unfold set_compilerOptions, set_values; simpl in *; [reflexivity|].
  do 2 f_equal. apply map_eq. intros key.
  rewrite !defaults_fold_lookup.
  destruct (default_under key (JSMap.values ds)) eqn:E; [reflexivity|].
  apply lookup_insert_ne. intros <-.
  assert (Hin : In d (JSMap.values ds))
    by (eapply JSMapFacts.get_Some_values; exact Hd).
  rewrite List.Forall_forall in Hall.
  destruct (Hall d Hin) as [Hscope|[v' Hv']]; [congruence|].
  destruct (default_under_Some d v' _ Hin Hts Hv') as [x Hx]. congruence.
Qed.

Lemma setValues_state (obj : list (string * Value)) this :
  snd (setValues obj this) = fold_left setValue_state obj this.
Proof. unfold setValues, bind. now rewrite setValues_loop_eq. Qed.

(** X13.  [reset] forgets what was set: when the defaults registered can
    be stored, [reset] after [setValues(obj)] (and so after any [setValue])
    leaves the container that [reset] alone leaves. *)
Theorem reset_forgets_values (obj : list (string * Value)) this :
  Forall default_valid (JSMap.values (_declarations this)) ->
  reset (snd (setValues obj this)) = reset this
  /\ forall (name_ : string) value,
       reset (snd (setValue name_ value this)) = reset this.
Proof.
  intros Hall. split; [|intros; now apply reset_after_setValue].
  rewrite setValues_state.
  revert this Hall. induction obj as [|[n v] rest IH]; intros this Hall;
    [reflexivity|].
  cbn [fold_left]. rewrite IH.
  - now apply reset_after_setValue.
  - now rewrite setValue_state_declarations.
Qed.

(** X14.  Right after [reset], [isDefault] compares the converted default
    with the raw one: for a declared option outside the TypeScript scope
    whose canonical name no other registered object bears and whose
    default converts to [v], [isDefault(name)] after [reset] is
    [v === defaultValue], so it is [false] when conversion gives another
    value or an array at another address. *)
Theorem isDefault_after_reset (name_ : string) this d v :
  Forall default_valid (JSMap.values (_declarations this)) ->
  getDeclaration this name_ = Some d ->
  is_TypeScript d = false ->
  convert (defaultValue d) d = Ok v ->
  (forall d', In d' (JSMap.values (_declarations this)) ->
              name d' = name d -> d' = d) ->
  let after := snd (reset this) in
  isDefault name_ after = (Normal (strict_equals v (defaultValue d)), after).
Proof.
  intros Hall Hd Hts Hv Honly after. subst after.
  rewrite (reset_valid this Hall). cbn [snd].
  set (after := set_compilerOptions _ _).
  assert (Hd' : getDeclaration after name_ = Some d) by exact Hd.
  unfold isDefault, bind. rewrite (getValue_stored name_ after d Hd' Hts).
  unfold gets. rewrite Hd'. do 2 f_equal.
  unfold property. subst after. simpl.
  rewrite (defaults_lookup d v); auto.
  left. eapply JSMapFacts.get_Some_values. exact Hd.
Qed.

(** *** What every use of the container keeps true *)

Lemma well_formed_same this after :
  _readers after = _readers this ->
  _declarations after = _declarations this ->
  well_formed this -> well_formed after.
Proof.
  unfold well_formed, keyed_by_names. intros -> ->. tauto.
Qed.

Lemma for_of_invariant {A} (P : Options -> Prop) (body : A -> M unit)
    (xs : list A) this :
  (forall x st, P st -> P (snd (body x st))) ->
  P this -> P (snd (for_of xs body this)).
Proof.
  intros Hbody. revert this.
  induction xs as [|x xs IH]; intros this Hthis; [exact Hthis|].
  cbn [for_of]. unfold bind.
  pose proof (Hbody x this Hthis) as Hstep.
  destruct (body x this) as [[[]|e] mid]; simpl in Hstep; auto.
Qed.

Lemma store_default_readers d this :
  _readers (snd (store_default d this)) = _readers this.
Proof.
  rewrite store_default_eq. destruct (is_TypeScript d); [reflexivity|].
  destruct (convert (defaultValue d) d); reflexivity.
Qed.

Lemma register_name_well_formed d (name_ : string) this :
  In name_ (declaration_names d) ->
  well_formed this -> well_formed (snd (register_name d name_ this)).
Proof.
  intros Hin (Hsorted & Hnodup & Hkeyed). rewrite register_name_eq.
  destruct (conflicts this d name_); simpl.
  - repeat split; assumption.
  - split; [exact Hsorted|]. split; [now apply JSMapMoreFacts.set_NoDup|].
    intros key d' Hget. simpl in Hget.
    apply JSMapFacts.get_set_Some in Hget as [[-> ->]|Hget];
      [|now apply Hkeyed].
    unfold declaration_names in Hin. destruct Hin as [<-|Hin]; [now left|].
    destruct (truthy_short d) as [s|]; [|destruct Hin].
    destruct Hin as [<-|[]]. right. eauto.
Qed.

Lemma register_names_well_formed d (names : list string) this :
  (forall n, In n names -> In n (declaration_names d)) ->
  well_formed this ->
  well_formed (snd (for_of names (register_name d) this)).
Proof.
  revert this. induction names as [|n rest IH]; intros this Hsub Hwf;
    [exact Hwf|].
  cbn [for_of]. unfold bind.
  pose proof (register_name_well_formed d n this
                (Hsub n (or_introl eq_refl)) Hwf) as Hstep.
  destruct (register_name d n this) as [[[]|e] mid]; simpl in Hstep;
    [|exact Hstep].
  apply IH; [|exact Hstep]. intros n' Hn'. apply Hsub. now right.
Qed.

Lemma addDeclaration_well_formed d this :
  well_formed this -> well_formed (snd (addDeclaration d this)).
Proof.
  intros Hwf. unfold addDeclaration, bind.
  pose proof (register_names_well_formed d (declaration_names d) this
                (fun n H => H) Hwf) as Hloop.
  destruct (for_of (declaration_names d) (register_name d) this)
    as [[[]|e] mid]; simpl in Hloop; [|exact Hloop].
  eapply well_formed_same; [| |exact Hloop].
  - apply store_default_readers.
  - apply store_default_declarations.
Qed.

Lemma perform_well_formed this (call : Call) :
  well_formed this -> well_formed (perform this call).
Proof.
  intros Hwf. destruct call as [lg| |r|n|d|ds|n|n v|obj]; simpl.
  - exact Hwf.
  - unfold reset, bind, gets.
    assert (Hloop : forall ds st, _readers (snd (for_of ds store_default st))
                                  = _readers st
                                  /\ _declarations
                                       (snd (for_of ds store_default st))
                                     = _declarations st).
    { intros ds st.
      apply (for_of_invariant
               (fun st' => _readers st' = _readers st
                           /\ _declarations st' = _declarations st));
        [|split; reflexivity].
      intros d st' [<- <-].
      split; [apply store_default_readers|apply store_default_declarations]. }
    specialize (Hloop (JSMap.values (_declarations this)) this).
    destruct (for_of _ store_default this) as [[[]|e] mid];
      simpl in *; destruct Hloop as [Hr Hd];
      eapply well_formed_same; eauto.
  - destruct Hwf as (Hsorted & Hrest). split; [|exact Hrest].
    now apply insertPrioritySorted_sorted.
  - destruct Hwf as (Hsorted & Hrest). split; [|exact Hrest].
    now apply (removeReaderByName_sorted n this).
  - now apply addDeclaration_well_formed.
  - apply (for_of_invariant well_formed); [|exact Hwf].
    intros d st. apply addDeclaration_well_formed.
  - destruct Hwf as (Hsorted & Hnodup & Hkeyed).
    split; [|split].
    + rewrite removeDeclarationByName_eq. simpl.
      destruct (getDeclaration this n); assumption.
    + rewrite removeDeclarationByName_eq. simpl.
      destruct (getDeclaration this n) as [d|]; [|assumption]. simpl.
      destruct (truthy_short d);
        repeat apply JSMapMoreFacts.delete_NoDup; assumption.
    + now apply removeDeclarationByName_keyed_by_names.
  - eapply well_formed_same; [| |exact Hwf].
    + rewrite setValue_eq. destruct (getDeclaration this n) as [d|];
        [|reflexivity].
      destruct (convert v d); [|reflexivity].
      destruct (is_TypeScript d); reflexivity.
    + apply (setValue_state_declarations this (n, v)).
  - rewrite setValues_state.
    apply (well_formed_same this); [| |exact Hwf].
    + induction obj as [|[n v] rest IH] in this |- *; [reflexivity|].
      cbn [fold_left]. rewrite IH.
      unfold setValue_state. simpl. rewrite setValue_eq.
      destruct (getDeclaration this n) as [d|]; [|reflexivity].
      destruct (convert v d); [|reflexivity].
      destruct (is_TypeScript d); reflexivity.
    + apply setValue_states_declarations.
Qed.

(** X15.  However a new container is used (any sequence of calls of its
    methods, whether they return or throw, readers' code apart), its
    registry has one entry for each key, and a name finds a declaration
    only if it is, up to letter case, the canonical or the short name of
    that declaration. *)
Theorem calls_keep_well_formed (calls : list Call) (logger : Logger) :
  let this := fold_left perform calls (Options_new logger) in
  NoDup (List.map fst (_declarations this))
  /\ (forall (name_ : string) d, getDeclaration this name_ = Some d ->
      toLowerCase name_ = toLowerCase (name d)
      \/ exists s, truthy_short d = Some s
                   /\ toLowerCase name_ = toLowerCase s).
Proof.
  intros this.
  assert (Hwf : well_formed this).
  { subst this.
    assert (Hnew : well_formed (Options_new logger)).
    { split; [constructor|]. split; [constructor|].
      apply keyed_by_names_new. }
    revert Hnew. generalize (Options_new logger) as st.
    induction calls as [|call rest IH]; intros st Hst; [exact Hst|].
    cbn [fold_left]. apply IH. now apply perform_well_formed. }
  destruct Hwf as (_ & Hnodup & Hkeyed).
  split; [exact Hnodup|].
  intros n d Hd. now apply Hkeyed.
Qed.

(** *** [getDeclarationsByScope] *)

Lemma same_object_sym d d' : same_object d d' = same_object d' d.
Proof. apply Nat.eqb_sym. Qed.

Lemma uniq_from_In (seen array : list DeclarationOption) d :
  In d (uniq_from seen array) ->
  In d array /\ existsb (same_object d) seen = false.
Proof.
  revert seen. induction array as [|d0 rest IH]; intros seen; simpl; [tauto|].
  destruct (existsb (same_object d0) seen) eqn:E.
  - intros Hin. apply IH in Hin. tauto.
  - intros [<-|Hin]; [tauto|].
    apply IH in Hin as [Hin Hseen]. simpl in Hseen.
    apply Bool.orb_false_iff in Hseen. tauto.
Qed.

Lemma uniq_from_NoDup (seen array : list DeclarationOption) :
  NoDup (List.map ref (uniq_from seen array)).
Proof.
  revert seen. induction array as [|d0 rest IH]; intros seen; simpl;
    [constructor|].
  destruct (existsb (same_object d0) seen); [apply IH|].
  simpl. apply NoDup_cons. split; [|apply IH].
  rewrite list_elem_of_In, in_map_iff. intros (d & Href & Hin).
  apply uniq_from_In in Hin as [_ Hseen]. simpl in Hseen.
  apply Bool.orb_false_iff in Hseen as [Hdiff _].
  unfold same_object in Hdiff. apply Nat.eqb_neq in Hdiff. congruence.
Qed.

Lemma uniq_from_complete (seen array : list DeclarationOption) d :
  In d array ->
  existsb (same_object d) seen = true
  \/ exists d', In d' (uniq_from seen array) /\ same_object d' d = true.
Proof.
  revert seen. induction array as [|d0 rest IH]; intros seen; simpl; [tauto|].
  intros [->|Hin].
  - destruct (existsb (same_object d) seen); [now left|].
    right. exists d. split; [now left|apply same_object_refl].
  - destruct (existsb (same_object d0) seen) eqn:E.
    + destruct (IH seen Hin) as [H|(d' & H1 & H2)]; eauto.
    + destruct (IH (d0 :: seen) Hin) as [H|(d' & H1 & H2)].
      * simpl in H. apply Bool.orb_true_iff in H as [H|H]; [|now left].
        right. exists d0. split; [now left|].
        now rewrite same_object_sym.
      * right. exists d'. split; [now right|exact H2].
Qed.

Lemma filter_NoDup_ref (f : DeclarationOption -> bool)
    (l : list DeclarationOption) :
  NoDup (List.map ref l) -> NoDup (List.map ref (List.filter f l)).
Proof.
  induction l as [|d l IH]; simpl; intros Hnd; [constructor|].
  apply NoDup_cons in Hnd as [Hnotin Hrest].
  destruct (f d); simpl; [|now apply IH].
  apply NoDup_cons. split; [|now apply IH].
  rewrite list_elem_of_In, in_map_iff in *. intros (d' & Href & Hin).
  apply Hnotin. exists d'. apply filter_In in Hin. tauto.
Qed.

Lemma ParameterScope_eqb_eq (a b : ParameterScope) :
  ParameterScope_eqb a b = true <-> a = b.
Proof. destruct a, b; simpl; split; congruence. Qed.

(** X16.  [getDeclarationsByScope(scope)] lists each declaration object
    once, however many keys hold it: no two entries of the result are
    the same object, every entry is registered and has the scope asked
    for, an unset scope counting as [TypeDoc]; and when the registered
    objects are told apart by their addresses, every registered
    declaration of that scope is listed. *)
Theorem getDeclarationsByScope_effect this (scope_ : ParameterScope) :
  let registered := JSMap.values (_declarations this) in
  let listed := getDeclarationsByScope this scope_ in
  NoDup (List.map ref listed)
  /\ (forall d, In d listed ->
      In d registered /\ scope_or_TypeDoc d = scope_)
  /\ ((forall d d', In d registered -> In d' registered ->
                    same_object d d' = true -> d = d') ->
      forall d, In d registered -> scope_or_TypeDoc d = scope_ ->
                In d listed).
Proof.
  intros registered listed. subst listed. unfold getDeclarationsByScope, uniq.
  fold registered. split; [|split].
  - apply filter_NoDup_ref, uniq_from_NoDup.
  - intros d Hin. apply filter_In in Hin as [Hin Hscope].
    apply uniq_from_In in Hin as [Hin _].
    now rewrite ParameterScope_eqb_eq in Hscope.
  - intros Hobjects d Hin Hscope.
    destruct (uniq_from_complete [] registered d Hin)
      as [H|(d' & Hin' & Hsame)]; [discriminate|].
    assert (d' = d) as ->.
    { apply Hobjects; auto. now apply uniq_from_In in Hin' as [? _]. }
    apply filter_In. split; [exact Hin'|].
    now apply ParameterScope_eqb_eq.
Qed.

(** *** More on [setValues] and [addDeclaration] *)

Lemma omap_app_list {A B} (f : A -> option B) (xs ys : list A) :
  omap f (xs ++ ys) = omap f xs ++ omap f ys.
Proof.
  induction xs as [|x xs IH]; [reflexivity|].
  cbn [app]. rewrite !omap_cons_unfold, IH. now destruct (f x).
Qed.

(** X20.  [setValues] on the entries of two objects one after the other
    is [setValues] on the first and then on the second: the container is
    the same, and the errors are those of the first followed by those of
    the second. *)
Theorem setValues_app (xs ys : list (string * Value)) this :
  let mid := snd (setValues xs this) in
  snd (setValues (xs ++ ys) this) = snd (setValues ys mid)
  /\ fst (setValues (xs ++ ys) this) =
     Normal
       match fst (setValues xs this), fst (setValues ys mid) with
       | Normal (Err e1), Normal (Err e2) => Err (e1 ++ e2)
       | Normal (Err e1), _ => Err e1
       | _, Normal (Err e2) => Err e2
       | _, _ => Ok tt
       end.
Proof.
  intros mid. subst mid. rewrite !setValues_state. split.
  - now rewrite fold_left_app.
  - unfold setValues, bind. rewrite !setValues_loop_eq. simpl.
    rewrite omap_app_list.
    rewrite (omap_pointwise
               (setValue_error (fold_left setValue_state xs this))
               (setValue_error this))
      by (intros e; apply setValue_error_declarations,
            setValue_states_declarations).
    destruct (omap (setValue_error this) xs) as [|e1 l1];
      destruct (omap (setValue_error this) ys) as [|e2 l2]; simpl;
      rewrite ?app_nil_r; reflexivity.
Qed.

(** X21.  Adding a declaration a second time right after it was added
    changes nothing: when none of its names is held by another object and
    its default can be stored, the second [addDeclaration] completes
    normally and leaves the container the first one left. *)
Theorem addDeclaration_twice d this :
  (forall n, In n (declaration_names d) -> conflicts this d n = false) ->
  default_valid d ->
  let after := snd (addDeclaration d this) in
  addDeclaration d after = (Normal tt, after).
Proof.
  intros Hfree Hvalid after. subst after.
  pose proof (register_names_registered d (declaration_names d) this) as Hfound.
  destruct (register_names_effect d (declaration_names d) this)
    as (mid & Hrun & _).
  rewrite Hrun in Hfound. cbn [snd] in Hfound.
  assert (Hfirst : addDeclaration d this
                   = (Normal tt, set_values (fun bag => default_into bag d) mid))
    by (unfold addDeclaration, bind; now rewrite Hrun, store_default_valid).
  rewrite Hfirst. cbn [snd]. unfold addDeclaration, bind.
  rewrite register_names_again
    by (intros n Hn; apply (Hfound n Hn); auto).
  rewrite store_default_valid by exact Hvalid. f_equal.
  destruct mid as [rs ds vs cs lg]. unfold set_values; simpl. f_equal.
  unfold default_into. destruct (is_TypeScript d); [reflexivity|].
  destruct (convert (defaultValue d) d); [|reflexivity].
  apply insert_insert_eq.
Qed.

(** *** [read] *)

Lemma call_each_app (xs ys : list OptionsReader.t) (logger : Logger) this :
  call_each (xs ++ ys) logger this =
  match call_each xs logger this with
  | (Normal logger', mid) => call_each ys logger' mid
  | (Throw e, mid) => (Throw e, mid)
  end.
Proof.
  revert logger this. induction xs as [|x xs IH]; intros logger this;
    [reflexivity|].
  cbn [app call_each].
  destruct (completion (reader_read x logger this)); [apply IH|reflexivity].
Qed.

Lemma insertPrioritySorted_back arr item :
  Forall (fun v => OptionsReader.priority v <= OptionsReader.priority item)
    arr ->
  insertPrioritySorted arr item = arr ++ [item].
Proof.
  induction 1 as [|v rest Hv _ IH]; simpl; [reflexivity|].
  destruct (Z.ltb_spec (OptionsReader.priority item)
              (OptionsReader.priority v)); [lia|].
  now rewrite IH.
Qed.


End MoreProperties.

(** ** Properties of [TypeParameterType.equals] *)

Module TypeParameterTypeFacts.
Import TypeParameterType.
Section Facts.
Context {OtherType : Type}.
Context (Other_equals : OtherType -> @Type_ OtherType -> bool).
Implicit Types (this type t : @Type_ OtherType).

Lemma Type_induction (P : @Type_ OtherType -> Prop) :
  (forall n, P (TypeParameter n None)) ->
  (forall n c, P c -> P (TypeParameter n (Some c))) ->
  (forall o, P (Other o)) ->
  forall t, P t.
Proof.
  intros Hnone Hsome Hother.
  fix IH 1. intros [n [c|]|o]; [apply Hsome, IH|apply Hnone|apply Hother].
Qed.

Lemma equals_on_both t :
  forall type,
    equals_on Other_equals type t = equals Other_equals t type
    /\ equals_on Other_equals t type = equals Other_equals type t.
Proof.
  induction t as [n|n c IH|o] using Type_induction;
    intros [m [k|]|o']; split; try reflexivity; simpl.
  - symmetry. apply IH.
  - symmetry. apply IH.
Qed.

(** The two ways of following the recursion give the same call. *)
Lemma equals_on_eq this type :
  equals_on Other_equals type this = equals Other_equals this type.
Proof. apply equals_on_both. Qed.

(** The method as the source has it. *)
Lemma equals_eq (n : string) (c : option Type_) type :
  equals Other_equals (TypeParameter n c) type =
  match type with
  | Other _ => false
  | TypeParameter _ k =>
      match c, k with
      | Some c', Some k' => equals Other_equals k' c'
      | None, None => true
      | _, _ => false
      end
  end.
Proof.
  destruct type as [m [k|]|o]; destruct c as [c'|]; try reflexivity.
  simpl. apply equals_on_eq.
Qed.

Lemma rename_TypeParameter (f : string -> string) (n : string)
    (c : option (@Type_ OtherType)) :
  rename f (TypeParameter n c)
  = TypeParameter (f n) match c with
                        | Some c' => Some (rename f c')
                        | None => None
                        end.
Proof. reflexivity. Qed.

Lemma equals_rename_both t :
  (forall (h : string -> string) o t',
     Other_equals o (rename h t') = Other_equals o t') ->
  forall (f g : string -> string) type,
    equals Other_equals (rename f t) (rename g type)
    = equals Other_equals t type
    /\ equals Other_equals (rename g type) (rename f t)
       = equals Other_equals type t.
Proof.
  intros Hother.
  induction t as [n|n c IH|o] using Type_induction; intros f g type.
  - destruct type as [m [k|]|o']; split; try reflexivity.
    apply (Hother f o' (TypeParameter n None)).
  - destruct type as [m [k|]|o'].
    + rewrite !rename_TypeParameter, !equals_eq. split; apply IH.
    + split; reflexivity.
    + split; [reflexivity|].
      apply (Hother f o' (TypeParameter n (Some c))).
  - split; [apply (Hother g o type)|].
    destruct type as [m [k|]|o']; reflexivity.
Qed.

(** X18.  [equals] never looks at a name: with the type parameters of
    the receiver and of the argument renamed in any way, the answer is
    the same, as long as the [equals] of the other classes does not
    depend on the names of type parameters either.  So two type
    parameters without constraints are equal whatever their names. *)
Theorem equals_ignores_names (f g : string -> string) this type :
  (forall (h : string -> string) o t,
     Other_equals o (rename h t) = Other_equals o t) ->
  equals Other_equals (rename f this) (rename g type)
  = equals Other_equals this type
  /\ forall n m : string,
       equals Other_equals (TypeParameter n None) (TypeParameter m None)
       = true.
Proof.
  intros Hother. split; [|reflexivity].
  now apply equals_rename_both.
Qed.

Lemma equals_depth_both t :
  only_parameters t = true ->
  forall type, only_parameters type = true ->
    equals Other_equals t type = Nat.eqb (depth t) (depth type)
    /\ equals Other_equals type t = Nat.eqb (depth type) (depth t).
Proof.
  induction t as [n|n c IH|o] using Type_induction; intros Ht type Htype.
  - destruct type as [m [k|]|o']; [| |discriminate]; split; reflexivity.
  - destruct type as [m [k|]|o']; [| |discriminate].
    + rewrite !equals_eq. simpl depth. simpl in Ht, Htype.
      destruct (IH Ht k Htype) as [H1 H2].
      change (Nat.eqb (S (depth c)) (S (depth k)))
        with (Nat.eqb (depth c) (depth k)).
      change (Nat.eqb (S (depth k)) (S (depth c)))
        with (Nat.eqb (depth k) (depth c)).
      rewrite H1, H2. split; apply Nat.eqb_sym.
    + split; reflexivity.
  - discriminate.
Qed.

(** X19.  On types that are type parameters all the way down their
    constraints, [equals] only counts: two such types are equal exactly
    when their chains of constraints have the same length.  So on them
    [equals] is reflexive and symmetric, and a type parameter with a
    constraint never equals one without. *)
Theorem equals_counts_constraints this type :
  only_parameters this = true ->
  only_parameters type = true ->
  equals Other_equals this type = Nat.eqb (depth this) (depth type)
  /\ equals Other_equals this this = true
  /\ equals Other_equals type this = equals Other_equals this type.
Proof.
  intros Hthis Htype.
  destruct (equals_depth_both this Hthis type Htype) as [H1 H2].
  destruct (equals_depth_both this Hthis this Hthis) as [H3 _].
  split; [exact H1|]. split.
  - rewrite H3. apply Nat.eqb_refl.
  - rewrite H1, H2. apply Nat.eqb_sym.
Qed.

End Facts.
End TypeParameterTypeFacts.

(** ** The properties on the concrete scenarios *)

Module Checks.
Import Scenario.
#[local] Existing Instance tracer.

#[local] Existing Instance sampleConverter.

(** C1, as stated, fails: [theme] is registered and holds the user's
    value ["dark"]; adding the same object again completes without a
    diagnostic and with the same registry, but the value is the default
    again. *)
Lemma readd_resets_value :
  getDeclaration themed "theme" = Some theme
  /\ getDeclaration themed "t" = Some theme
  /\ fst (getValue "theme" themed) = Normal (VString "dark")
  /\ fst (addDeclaration theme themed) = Normal tt
  /\ _logger (run (addDeclaration theme) themed) = _logger themed
  /\ _declarations (run (addDeclaration theme) themed) = _declarations themed
  /\ fst (getValue "theme" (run (addDeclaration theme) themed))
     = Normal (VString "default").
Proof. repeat split. Qed.

Lemma addDeclaration_same_object_witness :
  exists c after,
    addDeclaration version themed = (c, after)
    /\ _logger after = _logger themed
    /\ _declarations after = _declarations themed
    /\ c = Normal tt
    /\ _values after !! "version" = Some (VBool false)
    /\ _values after !! "theme" = Some (VString "dark").
Proof.
  destruct (addDeclaration_same_object version themed)
    as (c & after & Hrun & Hlog & Hdecl & _ & Hother & _ & Hvalue & _).
  - reflexivity.
  - intros s Hs. vm_compute in Hs. injection Hs as <-. reflexivity.
  - exists c, after. destruct (Hvalue (VBool false)) as [Hc Hv];
      [reflexivity|reflexivity|].
    repeat split; try assumption.
    rewrite Hother by discriminate. reflexivity.
Defined.

(** C2, as stated, fails: [theme] is registered and holds ["dark"];
    [theme2] is another object with the same canonical name.  Adding it
    emits one diagnostic, keeps [theme] registered and does not throw,
    but [theme] now reads the default of the rejected [theme2]. *)
Lemma rejected_declaration_overwrites_value :
  getDeclaration themed "theme" = Some theme
  /\ same_object theme theme2 = false
  /\ fst (getValue "theme" themed) = Normal (VString "dark")
  /\ fst (addDeclaration theme2 themed) = Normal tt
  /\ _logger (run (addDeclaration theme2) themed)
     = _logger themed ++ ["The option theme has already been registered"]
  /\ getDeclaration (run (addDeclaration theme2) themed) "theme" = Some theme
  /\ fst (getValue "theme" (run (addDeclaration theme2) themed))
     = Normal (VString "minimal").
Proof. repeat split. Qed.

(** Both names of [theme3] are held by [theme]: two diagnostics. *)
Example two_conflicts_two_diagnostics :
  _logger (run (addDeclaration theme3) declared)
  = ["The option Theme has already been registered";
     "The option T has already been registered"].
Proof. reflexivity. Qed.

(** A declaration whose default does not convert: the call throws after
    the loop, so the declaration stays registered (and [reset] throws from
    then on), and a diagnostic for a conflict has been emitted. *)
Example conflict_then_throw :
  addDeclaration broken fresh
  = (Throw (mkError "Failed to validate default value for theme"),
     mkOptions [] [("theme", broken)] ∅ ∅ [])
  /\ fst (reset (run (addDeclaration broken) fresh))
     = Throw (mkError "Failed to validate default value for theme")
  /\ fst (addDeclaration broken declared)
     = Throw (mkError "Failed to validate default value for theme")
  /\ _logger (run (addDeclaration broken) declared)
     = ["The option theme has already been registered"].
Proof. repeat split. Qed.

Lemma addDeclaration_conflict_witness :
  exists c after,
    addDeclaration theme2 themed = (c, after)
    /\ getDeclaration after "theme" = Some theme
    /\ _logger after
       = _logger themed ++ ["The option theme has already been registered"]
    /\ c = Normal tt
    /\ _compilerOptions after = _compilerOptions themed
    /\ _values after !! "version" = Some (VBool false).
Proof.
  destruct (addDeclaration_conflict theme theme2 "theme" themed)
    as (c & after & Hrun & Hkept & Hlog & _ & Hc & _ & Hopt & Hother & _).
  - now left.
  - reflexivity.
  - reflexivity.
  - exists c, after. repeat split; try assumption.
    + apply Hc. right. eexists. reflexivity.
    + rewrite Hother by discriminate. reflexivity.
Defined.

Lemma setValue_outcome_witness :
  (exists e, setValue "nope" VNull declared = (Normal (Err e), declared))
  /\ setValue "VERSION" (VString "yes") declared
     = (Normal (Err (mkError "Invalid value for version")), declared)
  /\ (exists after,
        setValue "Target" (VString "ES5") declared = (Normal (Ok tt), after)
        /\ _compilerOptions after !! "target" = Some (VString "ES5")
        /\ _values after = _values declared).
Proof.
  split; [|split].
  - apply (setValue_outcome "nope" VNull declared). reflexivity.
  - apply (proj1 (proj2 (setValue_outcome "VERSION" (VString "yes") declared))
             version); reflexivity.
  - destruct (proj2 (proj2 (setValue_outcome "Target" (VString "ES5")
                              declared))
                target (VString "ES5"))
      as (after & Hrun & Hbags & _); [reflexivity|reflexivity|].
    exists after. simpl in Hbags. destruct Hbags as [Hopt Hval].
    repeat split; try assumption.
    rewrite Hopt. apply lookup_insert_eq.
Defined.

(** C4, as stated, fails: [theme] and [theme2] are two registered objects
    with the canonical name ["theme"] ([theme2] under its short name
    only).  [reset()] completes, ["theme"] finds [theme], whose default
    converts to ["default"], yet its value is the default of [theme2]. *)
Lemma reset_gives_another_default :
  getDeclaration shadowed "theme" = Some theme
  /\ getDeclaration shadowed "g" = Some theme2
  /\ is_TypeScript theme = false
  /\ convert (defaultValue theme) theme = Ok (VString "default")
  /\ fst (reset shadowed) = Normal tt
  /\ getDeclaration (run reset shadowed) "theme" = Some theme
  /\ fst (getValue "theme" (run reset shadowed)) = Normal (VString "minimal").
Proof. repeat split. Qed.

Lemma declared_defaults_valid :
  Forall default_valid (JSMap.values (_declarations targeted)).
Proof.
  apply List.Forall_forall. intros d Hin. vm_compute in Hin.
  repeat (destruct Hin as [<-|Hin];
          [first [left; reflexivity | right; eexists; reflexivity]|]).
  destruct Hin.
Qed.

Lemma reset_restores_defaults_witness :
  _compilerOptions targeted !! "target" = Some (VString "ES5")
  /\ exists after,
       reset targeted = (Normal tt, after)
       /\ _compilerOptions after = ∅
       /\ getValue "V" after = (Normal (VBool false), after).
Proof.
  split; [reflexivity|].
  destruct (reset_restores_defaults targeted declared_defaults_valid)
    as (after & Hrun & Hopt & Hdecl & Hvalues).
  exists after. repeat split; try assumption.
  destruct (Hvalues "V" version) as (v & Hv & Hget).
  - unfold getDeclaration. rewrite Hdecl. reflexivity.
  - reflexivity.
  - intros d' Hin Hname. simpl in Hin.
    repeat (destruct Hin as [<-|Hin]; [reflexivity || discriminate|]).
    destruct Hin.
  - injection Hv as <-. exact Hget.
Defined.


(** A reader removed during the pass is still called in it: the loop
    walks the array the pipeline was when it started. *)
Example reader_removed_during_read :
  @readers_leave_array remover
  /\ option_map fst (@read remover 10 [] loading)
     = Some (Normal ["argv-early"; "plugins"; "argv-late"])
  /\ option_map (fun outcome => _readers (snd outcome))
       (@read remover 10 [] loading)
     = Some [argv_early; plugins].
Proof.
  split; [|split; reflexivity].
  intros reader logger this. unfold leaves_array, reader_read, remover.
  now destruct (String.eqb (OptionsReader.name reader) "plugins").
Qed.

Lemma tracer_leaves_array : @readers_leave_array tracer.
Proof. intros reader logger this. reflexivity. Qed.


Lemma tryGetValue_outcome_witness :
  tryGetValue "nope" targeted
  = (Normal (Err (mkError "Unknown option 'nope'")), targeted)
  /\ tryGetValue "TARGET" targeted
     = (Normal (Err (mkError
          "TypeScript options must be fetched with getCompilerOptions.")),
        targeted)
  /\ tryGetValue "T" themed = (Normal (Ok (VString "dark")), themed).
Proof.
  split; [|split].
  - apply (proj1 (proj2 (tryGetValue_outcome "nope" targeted))). reflexivity.
  - apply (proj1 (proj2 (proj2 (tryGetValue_outcome "TARGET" targeted)))
             target); reflexivity.
  - apply (proj2 (proj2 (proj2 (tryGetValue_outcome "T" themed))) theme);
      reflexivity.
Defined.

Lemma setValues_aggregate_witness :
  exists after,
    setValues [("theme", VString "dark"); ("nope", VNull);
               ("version", VString "yes")] declared
    = (Normal (Err [mkError
                      "Tried to set an option (nope) that was not declared.";
                    mkError "Invalid value for version"]), after)
    /\ _values after !! "theme" = Some (VString "dark").
Proof.
  pose proof (setValues_aggregate
                [("theme", VString "dark"); ("nope", VNull);
                 ("version", VString "yes")] declared)
    as (Hrun & _ & _ & _ & Hkept).
  eexists. split; [exact Hrun|].
  apply (Hkept [] "theme" (VString "dark")
           [("nope", VNull); ("version", VString "yes")] theme).
  - reflexivity.
  - reflexivity.
  - reflexivity.
  - repeat constructor; discriminate.
Defined.

Lemma isDefault_strict_equality_witness :
  struct_equal (VArray 11 []) (defaultValue exclude) = true
  /\ isDefault "exclude" excluded = (Normal false, excluded)
  /\ isDefault "exclude" declared = (Normal true, declared).
Proof.
  split; [reflexivity|]. split.
  - apply (proj2 (isDefault_strict_equality "exclude" excluded exclude
                    eq_refl eq_refl)).
    + reflexivity.
    + reflexivity.
    + discriminate.
  - apply (proj1 (isDefault_strict_equality "exclude" declared exclude
                    eq_refl eq_refl)).
Defined.

(** C9, as stated, fails: the compiler option [target] holds the user's
    value ["ES5"]; after [removeDeclarationByName("target")] the
    declaration is gone, and the value is still in [_compilerOptions]. *)
Lemma removal_keeps_compiler_option :
  getDeclaration targeted "target" = Some target
  /\ _compilerOptions targeted !! "target" = Some (VString "ES5")
  /\ fst (removeDeclarationByName "target" targeted) = Normal tt
  /\ getDeclaration (run (removeDeclarationByName "target") targeted) "target"
     = None
  /\ _compilerOptions (run (removeDeclarationByName "target") targeted)
       !! "target"
     = Some (VString "ES5").
Proof. repeat split. Qed.

Lemma removeDeclarationByName_effect_witness :
  removeDeclarationByName "nope" themed = (Normal tt, themed)
  /\ exists after,
       removeDeclarationByName "T" themed = (Normal tt, after)
       /\ getDeclaration after "theme" = None
       /\ getDeclaration after "t" = None
       /\ _values after !! "theme" = None
       /\ getValue "T" after = (Throw (mkError "Unknown option 'T'"), after).
Proof.
  split.
  - apply (proj1 (removeDeclarationByName_effect "nope" themed)). reflexivity.
  - destruct (proj2 (removeDeclarationByName_effect "T" themed) theme eq_refl)
      as (after & Hrun & Hname & Hshort & _ & Hvalue & _ & Hget).
    exists after. repeat split; try assumption.
    + apply Hshort. reflexivity.
    + apply Hget. right. exists "t"%string. split; reflexivity.
Defined.

Lemma isDefault_undeclared_throws_witness :
  getDeclaration declared "nope" = None
  /\ isDefault "nope" declared
     = (Throw (mkError "Unknown option 'nope'"), declared).
Proof.
  split; [reflexivity|].
  apply (isDefault_undeclared_throws "nope" declared). reflexivity.
Defined.

End Checks.

(** ** The further properties on the concrete scenarios *)

Module MoreChecks.
Import Scenario MoreScenario.
#[local] Existing Instance tracer.
#[local] Existing Instance sampleConverter.

Lemma lookup_ignores_case_witness :
  getDeclaration themed "THEME" = Some theme
  /\ getValue "THEME" themed = getValue "theme" themed
  /\ setValue "THEME" (VString "light") themed
     = setValue "theme" (VString "light") themed.
Proof.
  destruct (lookup_ignores_case "THEME" "theme" themed eq_refl)
    as (Hfind & _ & _ & _ & Hsame).
  destruct (Hsame theme eq_refl) as (_ & Hget & _ & Hset).
  split; [reflexivity|]. split; [exact Hget|apply Hset].
Defined.

Lemma getValue_TypeScript_throws_witness :
  _compilerOptions targeted !! "target" = Some (VString "ES5")
  /\ getValue "Target" targeted
     = (Throw (mkError
          "TypeScript options must be fetched with getCompilerOptions."),
        targeted).
Proof.
  split; [reflexivity|].
  apply (getValue_TypeScript_throws "Target" targeted target); reflexivity.
Defined.

Lemma setValue_read_back_witness :
  let after := snd (setValue "T" (VString "dark") declared) in
  getValue "Theme" after = (Normal (VString "dark"), after)
  /\ isDefault "theme" after = (Normal false, after).
Proof.
  intros after.
  destruct (setValue_read_back "T" (VString "dark") declared theme
              (VString "dark") eq_refl eq_refl) as [Hread _].
  split.
  - apply (Hread eq_refl "Theme" eq_refl).
  - apply (Hread eq_refl "theme" eq_refl).
Defined.

Lemma setValue_last_wins_witness :
  snd (setValue "theme" (VString "light")
         (snd (setValue "t" (VString "dark") declared)))
  = snd (setValue "theme" (VString "light") declared).
Proof.
  apply (setValue_last_wins "t" "theme" (VString "dark") (VString "light")
           declared theme (VString "light")); reflexivity.
Defined.

Lemma setValue_keeps_other_witness :
  fst (tryGetValue "theme" (snd (setValue "version" (VBool true) themed)))
  = Normal (Ok (VString "dark")).
Proof.
  rewrite (setValue_keeps_other "version" "theme" (VBool true) themed).
  - reflexivity.
  - intros d d' [= <-] [= <-]. right. right. discriminate.
Defined.

Lemma removeReaderByName_after_addReader_witness :
  _readers piped = [argv_early; tsconfig; argv_late]
  /\ _readers (snd (removeReaderByName "plugin" (snd (addReader plugin piped))))
     = _readers piped
  /\ _readers (snd (removeReaderByName "tsconfig-json"
                      (snd (addReader plugin piped))))
     = [argv_early; plugin; argv_late].
Proof.
  split; [reflexivity|].
  assert (Hsorted : StronglySorted priority_le (_readers piped)).
  { repeat constructor; unfold priority_le; simpl; lia. }
  split.
  - rewrite (removeReaderByName_after_addReader "plugin" plugin piped Hsorted).
    reflexivity.
  - rewrite (removeReaderByName_after_addReader "tsconfig-json" plugin piped
               Hsorted).
    reflexivity.
Defined.

Lemma addDeclaration_registers_witness :
  exists after,
    addDeclaration out themed = (Normal tt, after)
    /\ _logger after = _logger themed
    /\ getDeclaration after "O" = Some out
    /\ getValue "o" after = (Normal (VString "docs"), after).
Proof.
  destruct (addDeclaration_registers out themed)
    as (after & Hrun & Hlog & _ & Hfind & Hget).
  - intros n Hn. vm_compute in Hn.
    destruct Hn as [<-|[<-|[]]]; reflexivity.
  - right. eexists. reflexivity.
  - exists after. repeat split; try assumption.
    + apply (Hfind "o"%string "O"%string); [right; now left|reflexivity].
    + apply (Hget (VString "docs") "o"%string);
        [reflexivity|reflexivity|right; now left].
Defined.

Lemma removeDeclarationByName_after_addDeclaration_witness :
  removeDeclarationByName "out" (snd (addDeclaration out themed))
  = (Normal tt, themed).
Proof.
  apply (removeDeclarationByName_after_addDeclaration out themed).
  - intros n Hn. vm_compute in Hn.
    destruct Hn as [<-|[<-|[]]]; reflexivity.
  - reflexivity.
  - right. eexists. reflexivity.
Defined.

Lemma sample_defaults_valid :
  Forall default_valid [out; ratio].
Proof.
  apply List.Forall_forall.
  intros d [<-|[<-|[]]]; right; eexists; reflexivity.
Qed.

Lemma addDeclarations_then_reset_witness :
  exists after after',
    addDeclarations [out; ratio] targeted = (Normal tt, after)
    /\ reset after = (Normal tt, after')
    /\ _compilerOptions after' = ∅.
Proof.
  apply (addDeclarations_then_reset [out; ratio] targeted).
  - apply sample_defaults_valid.
  - apply Checks.declared_defaults_valid.
Defined.

Lemma addDeclarations_aborts_witness :
  fst (addDeclarations [out; strict; ratio] fresh)
  = Throw (mkError "Failed to validate default value for strict")
  /\ getDeclaration (snd (addDeclarations [out; strict; ratio] fresh)) "S"
     = Some strict
  /\ getDeclaration (snd (addDeclarations [out; strict; ratio] fresh)) "ratio"
     = None.
Proof.
  destruct (addDeclarations_aborts [out] [ratio] strict
              "Invalid value for strict" fresh) as [Hrun Hkept].
  - apply List.Forall_forall. intros d [<-|[]]. right. eexists. reflexivity.
  - reflexivity.
  - reflexivity.
  - change ([out] ++ strict :: [ratio]) with [out; strict; ratio] in Hrun.
    rewrite Hrun. split; [reflexivity|]. split; [|reflexivity].
    rewrite (getDeclaration_case "S" "s" _ eq_refl).
    apply (Hkept "s"%string); [right; now left|reflexivity].
Defined.

Lemma reset_idempotent_witness :
  reset (snd (reset targeted)) = (Normal tt, snd (reset targeted)).
Proof.
  apply (reset_idempotent targeted Checks.declared_defaults_valid).
Defined.

Lemma reset_forgets_values_witness :
  reset (snd (setValues [("theme", VString "dark"); ("target", VNull)]
                declared))
  = reset declared.
Proof.
  apply (reset_forgets_values [("theme", VString "dark"); ("target", VNull)]
           declared).
  apply Checks.declared_defaults_valid.
Defined.

Lemma with_ratio_defaults_valid :
  Forall default_valid (JSMap.values (_declarations with_ratio)).
Proof.
  apply List.Forall_forall. intros d Hin. vm_compute in Hin.
  repeat (destruct Hin as [<-|Hin];
          [first [left; reflexivity | right; eexists; reflexivity]|]).
  destruct Hin.
Qed.

(** An option whose default is [NaN] is not at its default right after
    [reset]; a flag is. *)
Lemma isDefault_after_reset_witness :
  fst (isDefault "ratio" (snd (reset with_ratio))) = Normal false
  /\ fst (isDefault "v" (snd (reset with_ratio))) = Normal true.
Proof.
  assert (Honly : forall d, In d [ratio; version] ->
            forall d', In d' (JSMap.values (_declarations with_ratio)) ->
                       name d' = name d -> d' = d).
  { intros d Hd d' Hin Hname. vm_compute in Hin.
    destruct Hd as [<-|[<-|[]]];
      repeat (destruct Hin as [<-|Hin]; [reflexivity || discriminate|]);
      destruct Hin. }
  split.
  - rewrite (isDefault_after_reset "ratio" with_ratio ratio VNaN
               with_ratio_defaults_valid eq_refl eq_refl eq_refl).
    + reflexivity.
    + apply Honly. now left.
  - rewrite (isDefault_after_reset "v" with_ratio version (VBool false)
               with_ratio_defaults_valid eq_refl eq_refl eq_refl).
    + reflexivity.
    + apply Honly. right. now left.
Defined.

Lemma addDeclaration_twice_witness :
  addDeclaration out (snd (addDeclaration out themed))
  = (Normal tt, snd (addDeclaration out themed)).
Proof.
  apply (addDeclaration_twice out themed).
  - intros n Hn. vm_compute in Hn.
    destruct Hn as [<-|[<-|[]]]; reflexivity.
  - right. eexists. reflexivity.
Defined.

(** Each declaration is listed once under its scope, in the order of
    registration, though [theme] and [version] are held by two keys. *)
Example getDeclarationsByScope_declared :
  getDeclarationsByScope declared TypeDoc = [theme; version; exclude]
  /\ getDeclarationsByScope declared TypeScript = [target].
Proof. split; reflexivity. Qed.


Lemma equals_ignores_names_witness :
  TypeParameterType.equals no_other T_extends_U K_extends_V = true.
Proof.
  rewrite <- (proj1 (TypeParameterTypeFacts.equals_ignores_names no_other
                       (fun _ => "T"%string) (fun _ => "U"%string)
                       T_extends_U K_extends_V (fun _ _ _ => eq_refl))).
  reflexivity.
Defined.

Lemma equals_counts_constraints_witness :
  TypeParameterType.equals no_other T_extends_U
    (TypeParameterType.TypeParameter "V" None) = false
  /\ TypeParameterType.equals no_other T_extends_U T_extends_U = true.
Proof.
  destruct (TypeParameterTypeFacts.equals_counts_constraints no_other
              T_extends_U (TypeParameterType.TypeParameter "V" None)
              eq_refl eq_refl) as (Hcount & Hrefl & _).
  split; [rewrite Hcount; reflexivity|exact Hrefl].
Defined.

End MoreChecks.
